(** * The kernel profiler of tfjs-core ([src/profiler.ts])

    A shallow embedding of [Profiler.profileKernel],
    [checkComputationForErrors] and [Logger.logKernelProfile], together with
    the part of the JavaScript run time they rely on: binary64 numbers and
    their classification, template-literal string conversion, promises with
    their reaction jobs and the microtask queue.

    Everything a run does that an observer could see (calls to the backend
    timer, to the compute closure, to the data reader and to the logger,
    console output, settlements of promises, unhandled rejections) is
    recorded, in order, in the [trace] of the [World]. *)

From Stdlib Require Import ZArith List String Ascii Lia DecimalString.
From Stdlib Require Import Floats.SpecFloat.
From stdpp Require Import base list.
Import ListNotations.

Infix "+:+" := String.append (at level 60, right associativity).

Open Scope string_scope.
Open Scope list_scope.

(** ** JavaScript numbers *)

(** A JS [number] is an IEEE 754 binary64 value: precision 53, maximal
    exponent 1024.  The elements of a [Float32Array], [Int32Array] or
    [Uint8Array] read out as such numbers. *)
Definition number : Set := spec_float.

Definition prec : Z := 53.
Definition emax : Z := 1024.

Definition NaN : number := S754_nan.
Definition Infinity : number := S754_infinity false.
Definition NegInfinity : number := S754_infinity true.

(** The number of an integer literal (exact below 2^53). *)
Definition of_Z (z : Z) : number := binary_normalize prec emax z 0 false.

(** [x * y] on numbers. *)
Definition times (x y : number) : number := SFmul prec emax x y.

(** The global [isNaN] applied to a number. *)
Definition isNaN (num : number) : bool :=
  match num with
  | S754_nan => true
  | _ => false
  end.

(** The global [isFinite] applied to a number: neither NaN nor an
    infinity. *)
Definition isFinite (num : number) : bool :=
  match num with
  | S754_nan | S754_infinity _ => false
  | _ => true
  end.

(** The integer a number denotes, when it denotes one. *)
Definition integer_value (x : number) : option Z :=
  match x with
  | S754_zero _ => Some 0%Z
  | S754_finite s m e =>
      let sign (z : Z) := if s then (- z)%Z else z in
      if (0 <=? e)%Z then Some (sign (Z.pos m * 2 ^ e)%Z)
      else if (Z.pos m mod 2 ^ (- e) =? 0)%Z
           then Some (sign (Z.pos m / 2 ^ (- e))%Z)
           else None
  | _ => None
  end.

Definition decimal_of_N (n : N) : string :=
  NilZero.string_of_uint (N.to_uint n).

Definition decimal_of_nat (n : nat) : string :=
  NilZero.string_of_uint (Nat.to_uint n).

Definition decimal_of_Z (z : Z) : string :=
  match z with
  | Z0 => "0"
  | Zpos p => decimal_of_N (Npos p)
  | Zneg p => "-" +:+ decimal_of_N (Npos p)
  end.

(** ** Tensors and the values the profiler handles *)

(** [DataType] of [types.ts]: a union of five string literals. *)
Inductive DataType : Set :=
| float32 | int32 | bool_t | complex64 | string_t.

Definition DataType_eqb (a b : DataType) : bool :=
  match a, b with
  | float32, float32 | int32, int32 | bool_t, bool_t
  | complex64, complex64 | string_t, string_t => true
  | _, _ => false
  end.

(** [DataId] is an opaque object; only its identity matters. *)
Definition DataId : Set := nat.

(** [TensorInfo] of [kernel_registry.ts]. *)
Record TensorInfo : Set := mkTensorInfo {
  dataId : DataId;
  shape : list number;
  dtype : DataType
}.

(** [NamedTensorMap]: an object used as a map from input names to tensors.
    The logger walks it with [for (const name in inputs)], so it is kept as
    an association list in property enumeration order. *)
Definition NamedTensorMap : Set := list (string * TensorInfo).

(** [BackendValues]: a numeric typed array ([Float32Array], [Int32Array] or
    [Uint8Array]), read element by element as numbers ([vals[i] as number]).
    The fourth variant of the type, the [Uint8Array[]] of a string tensor,
    comes with the data type 'string', for which the values are not read. *)
Definition BackendValues : Set := list number.

(** What [f: () => T] with [T extends TensorInfo|TensorInfo[]] produces. *)
Inductive KernelOutput : Set :=
| Single (t : TensorInfo)
| Several (ts : list TensorInfo).

(** [BackendTimingInfo]: [kernelMs] and the optional accessor
    [getExtraProfileInfo], given by the string it returns. *)
Record BackendTimingInfo : Set := mkTiming {
  kernelMs : number;
  getExtraProfileInfo : option string
}.

(** A thrown value or a rejection reason. *)
Definition Error : Set := string.

(** ** Promises and the observable trace *)

Inductive Outcome (A : Type) : Type :=
| Fulfilled (a : A)
| Rejected (e : Error).
Arguments Fulfilled {A} a.
Arguments Rejected {A} e.

Inductive PromiseState (A : Type) : Type :=
| Pending
| Settled (o : Outcome A).
Arguments Pending {A}.
Arguments Settled {A} o.

(** One call of a [console] method. *)
Inductive Output : Set :=
| ConsoleWarn (msg : string)                      (* console.warn(msg) *)
| ConsoleLog (fmt : string) (styles : list string). (* console.log(fmt, ...styles) *)

(** The six arguments of one [logKernelProfile] call. *)
Record LogCall : Set := mkLogCall {
  lc_name : string;
  lc_result : TensorInfo;
  lc_vals : BackendValues;
  lc_timeMs : number;
  lc_inputs : NamedTensorMap;
  lc_extraInfo : option string
}.

(** Events.  [i] is the index of the [results.forEach] iteration whose
    closure performs the event; it tells apart the work done for two outputs
    that happen to be equal descriptors.

    [EvUnhandled e] says that a promise returned by one of the two [then]
    calls of [profileKernel] is rejected with [e]; nothing is chained on
    these promises, so the rejection is unhandled.  It is recorded at the
    step that causes the rejection; a host reports unhandled rejections
    later, once the microtask queue is empty, so the trace says that such a
    rejection happens in a task, not at which point of the task the host
    reports it. *)
Inductive Event : Type :=
| EvTime                                      (* backendTimer.time(fn) *)
| EvCompute (k : nat)                         (* k-th invocation of f() *)
| EvRead (i : nat) (d : DataId)               (* this.dataReader(r.dataId) *)
| EvReadSettled (i : nat) (o : Outcome BackendValues)
| EvTimerSettled (o : Outcome BackendTimingInfo)
| EvCheck (i : nat) (found : bool)            (* checkComputationForErrors returned *)
| EvConsole (o : Output)                      (* console.warn / console.log *)
| EvLog (i : nat) (c : LogCall)               (* this.logger.logKernelProfile(...) *)
| EvUnhandled (e : Error).                    (* a dangling promise is rejected *)

(** The closure [vals => {...}] that one round of [results.forEach] passes
    to [then]: the variables of [profileKernel] it captured ([kernelName],
    [inputs] and the [r] of the round). *)
Record Reaction : Set := mkReaction {
  rc_kernelName : string;
  rc_inputs : NamedTensorMap;
  rc_r : TensorInfo
}.

(** Reaction jobs of the two [then] calls in [profileKernel]: the outer
    closure applied to the values read, and the inner closure
    [timing => {...}], which also captured [vals], applied to the timing. *)
Inductive Job : Set :=
| JobRead (i : nat) (rc : Reaction) (vals : BackendValues)
| JobLog (i : nat) (rc : Reaction) (vals : BackendValues)
         (timing : BackendTimingInfo).

(** The job queued for a reaction that waited for the timer, once the timer
    is fulfilled with [timing]. *)
Definition waiter_job (timing : BackendTimingInfo)
    (x : nat * Reaction * BackendValues) : Job :=
  JobLog (fst (fst x)) (snd (fst x)) (snd x) timing.

(** The state of the run time during and after one [profileKernel] call. *)
Record World : Type := mkWorld {
  trace : list Event;
  (* promise returned by dataReader in iteration i, with the reaction
     registered on it *)
  reads : list (Reaction * PromiseState BackendValues);
  (* the promise returned by backendTimer.time *)
  timer : PromiseState BackendTimingInfo;
  (* reactions registered by timer.then while the timer was pending *)
  waiting : list (nat * Reaction * BackendValues);
  (* the microtask queue *)
  queue : list Job
}.

Definition start : World := mkWorld [] [] Pending [] [].

Definition set_trace (t : list Event) (w : World) : World :=
  mkWorld t (reads w) (timer w) (waiting w) (queue w).
Definition set_reads rs (w : World) : World :=
  mkWorld (trace w) rs (timer w) (waiting w) (queue w).
Definition set_timer t (w : World) : World :=
  mkWorld (trace w) (reads w) t (waiting w) (queue w).
Definition set_waiting ws (w : World) : World :=
  mkWorld (trace w) (reads w) (timer w) ws (queue w).
Definition set_queue q (w : World) : World :=
  mkWorld (trace w) (reads w) (timer w) (waiting w) q.

(** ** Synchronous code: state and exceptions *)

Inductive Completion (A : Type) : Type :=
| Normal (a : A)
| Throw (e : Error).
Arguments Normal {A} a.
Arguments Throw {A} e.

Definition Eff (A : Type) : Type := World -> Completion A * World.

Definition ret {A} (a : A) : Eff A := fun w => (Normal a, w).

Definition bind {A B} (m : Eff A) (k : A -> Eff B) : Eff B :=
  fun w =>
    match m w with
    | (Normal a, w') => k a w'
    | (Throw e, w') => (Throw e, w')
    end.

Definition throw {A} (e : Error) : Eff A := fun w => (Throw e, w).

Definition emit (ev : Event) : Eff unit :=
  fun w => (Normal tt, set_trace (trace w ++ [ev]) w).

Notation "x <- m ;; k" := (bind m (fun x => k))
  (at level 60, m at next level, right associativity).
Notation "m ;;; k" := (bind m (fun _ => k))
  (at level 60, right associativity).

(** Code that only writes to the console: the calls it makes, in order,
    and how it completes. *)
Definition Console (A : Type) : Type := list Output * Completion A.

Definition c_ret {A} (a : A) : Console A := ([], Normal a).

Definition c_bind {A B} (m : Console A) (k : A -> Console B) : Console B :=
  match m with
  | (out, Normal a) => let (out', c) := k a in (out ++ out', c)
  | (out, Throw e) => (out, Throw e)
  end.

Notation "m ;;> k" := (c_bind m (fun _ => k))
  (at level 60, right associativity).

Definition console_warn (msg : string) : Console unit :=
  ([ConsoleWarn msg], Normal tt).
Definition console_log (fmt : string) (styles : list string) : Console unit :=
  ([ConsoleLog fmt styles], Normal tt).

(** Running console code inside the world. *)
Definition lift {A} (m : Console A) : Eff A :=
  fun w => (snd m, set_trace (trace w ++ map EvConsole (fst m)) w).

Section Profiler.

(** [Number::toString] of a finite number that is not an integer below
    2^53 in magnitude (the shortest digits that read back as the number):
    part of the language, not of this repository, and never inspected by
    the code. *)
Variable digits_of : number -> string.

(** Conversion of a number inside a template literal. *)
Definition number_to_string (x : number) : string :=
  match x with
  | S754_nan => "NaN"
  | S754_infinity false => "Infinity"
  | S754_infinity true => "-Infinity"
  | _ =>
      match integer_value x with
      | Some z => if (Z.abs z <? 2 ^ 53)%Z then decimal_of_Z z else digits_of x
      | None => digits_of x
      end
  end.

(** ** [checkComputationForErrors] *)

(** The [for] loop over [vals]: the first element that is NaN or not finite
    is reported and ends the loop with [true]. *)
Fixpoint scan_vals (vals : BackendValues) (kernelName : string)
    : Console bool :=
  match vals with
  | [] => c_ret false
  | num :: rest =>
      if isNaN num || negb (isFinite num)
      then console_warn ("Found " +:+ number_to_string num
                         +:+ " in the result of '" +:+ kernelName +:+ "'") ;;>
           c_ret true
      else scan_vals rest kernelName
  end.

Definition checkComputationForErrors
    (vals : BackendValues) (dtype : DataType) (kernelName : string)
    : Console bool :=
  if negb (DataType_eqb dtype float32)
  then c_ret false
  else scan_vals vals kernelName.

(** ** [Logger] *)

Fixpoint repeat_string (s : string) (n : nat) : string :=
  match n with
  | O => ""
  | S n' => s +:+ repeat_string s n'
  end.

(** Modelled from the spec: [util.rightPad] is imported from [./util],
    which is not under src/.  The spec says a column is "padded to width"
    [size]; as the helper's name says, the blanks go to the right of the
    text, and a text that is already wide enough is left as it is. *)
Definition rightPad (a : string) (size : nat) : string :=
  if Nat.leb size (String.length a) then a
  else a +:+ repeat_string " " (size - String.length a).

(** Modelled from the spec: [sizeFromShape] is imported from [./util],
    which is not under src/.  The spec calls it the "element count derived
    from shape": the product of the dimensions, 1 for a scalar. *)
Definition sizeFromShape (shape : list number) : number :=
  match shape with
  | [] => of_Z 1
  | d :: rest => fold_left times rest d
  end.

(** [Array.prototype.toString] on an array of numbers: the elements joined
    by commas. *)
Definition array_to_string (a : list number) : string :=
  String.concat "," (map number_to_string a).

(** An optional string inside a template literal. *)
Definition optional_to_string (o : option string) : string :=
  match o with
  | Some s => s
  | None => "undefined"
  end.

Definition tab : string := String (ascii_of_nat 9) EmptyString.

(** One round of the [for (const name in inputs)] loop: what it appends to
    [inputShapesDescription]. *)
Definition describe_input (name : string) (input : TensorInfo) : string :=
  let inputShape := shape input in
  let inputRank := List.length inputShape in
  name +:+ ": " +:+ decimal_of_nat inputRank +:+ "D "
       +:+ (if Nat.ltb 0 inputRank then array_to_string inputShape else "")
       +:+ " ".

Definition describe_inputs (inputs : NamedTensorMap) : string :=
  fold_left (fun acc nt => acc +:+ describe_input (fst nt) (snd nt)) inputs "".

Definition log_styles : list string :=
  ["font-weight:bold"; "color:red"; "color:blue"; "color: orange";
   "color: green"; "color: steelblue"].

Definition logKernelProfile
    (name : string) (result : TensorInfo) (vals : BackendValues)
    (timeMs : number) (inputs : NamedTensorMap) (extraInfo : option string)
    : Console unit :=
  let time := rightPad (number_to_string timeMs +:+ "ms") 9 in
  let paddedName := rightPad name 25 in
  let rank := List.length (shape result) in
  let size := sizeFromShape (shape result) in
  let shape := rightPad (array_to_string (shape result)) 14 in
  let inputShapesDescription := describe_inputs inputs in
  console_log
    ("%c" +:+ paddedName +:+ tab +:+ "%c" +:+ time +:+ tab +:+ "%c"
       +:+ decimal_of_nat rank +:+ "D " +:+ shape +:+ tab +:+ "%c"
       +:+ number_to_string size +:+ tab +:+ "%c"
       +:+ inputShapesDescription +:+ tab +:+ "%c"
       +:+ optional_to_string extraInfo)
    log_styles.

(** The logger a profiler holds: any object with a [logKernelProfile]
    method.  An injected logger may write to the console and may throw. *)
Record Logger : Type := mkLogger {
  log_method : LogCall -> Console unit
}.

(** [new Logger()]. *)
Definition new_Logger : Logger :=
  mkLogger (fun c =>
    logKernelProfile (lc_name c) (lc_result c) (lc_vals c) (lc_timeMs c)
                     (lc_inputs c) (lc_extraInfo c)).

(** ** [Profiler] *)

(** The backend timer is outside this file.  [time(fn)] returns the promise
    held in the [timer] field of the world, settled later by the backend;
    what the profiler can see of the call itself is how many times [fn] has
    run when [time] returns. *)
Record BackendTimer : Set := mkBackendTimer {
  sync_calls : nat
}.

(** The data reader is outside this file as well: [dataReader(dataId)]
    returns a fresh pending promise, a slot of [reads], settled later by the
    backend. *)
Record Profiler : Type := mkProfiler {
  backendTimer : BackendTimer;
  logger : Logger
}.

(** The constructor: a missing logger is replaced by [new Logger()]. *)
Definition new_Profiler (bt : BackendTimer) (lg : option Logger) : Profiler :=
  mkProfiler bt (match lg with Some l => l | None => new_Logger end).

(** The compute closure [f]: the value returned by its [k]-th invocation
    (from 0).  This is a closure that returns; one that may throw is a
    [ThrowingFn], below. *)
Definition ComputeFn : Set := nat -> KernelOutput.

Section Invocation.

Variable this : Profiler.
Variable kernelName : string.
Variable inputs : NamedTensorMap.
Variable f : ComputeFn.

(** [() => { result = f(); }], at the [k]-th invocation of [f]. *)
Definition holdResultWrapperFn (k : nat) : Eff (option KernelOutput) :=
  emit (EvCompute k) ;;; ret (Some (f k)).

(** The invocations of the wrapper made by [time] before it returns; the
    local variable [result] starts out undefined ([None]). *)
Fixpoint invoke_wrapper (n k : nat) (result : option KernelOutput)
    : Eff (option KernelOutput) :=
  match n with
  | O => ret result
  | S n' => r <- holdResultWrapperFn k ;; invoke_wrapper n' (S k) r
  end.

(** [this.backendTimer.time(holdResultWrapperFn)]. *)
Definition backendTimer_time (result : option KernelOutput)
    : Eff (option KernelOutput) :=
  emit EvTime ;;; invoke_wrapper (sync_calls (backendTimer this)) 0 result.

(** [(Array.isArray(result) ? result : [result]) as TensorInfo[]]; an
    undefined [result] gives the one-element array [[undefined]]. *)
Definition as_results (result : option KernelOutput) : list (option TensorInfo) :=
  match result with
  | Some (Several ts) => map Some ts
  | Some (Single t) => [Some t]
  | None => [None]
  end.

(** [this.dataReader(r.dataId).then(vals => ...)]: the promise is created
    pending, with the reaction that captured [kernelName], [inputs] and
    [r]. *)
Definition dataReader_then (i : nat) (r : TensorInfo) : Eff unit :=
  emit (EvRead i (dataId r)) ;;;
  (fun w =>
     (Normal tt,
      set_reads (reads w ++ [(mkReaction kernelName inputs r, Pending)]) w)).

(** [results.forEach(r => ...)] from index [i] on.  Reading [r.dataId] of
    an undefined [r] throws. *)
Fixpoint forEach_results (rs : list (option TensorInfo)) (i : nat) : Eff unit :=
  match rs with
  | [] => ret tt
  | None :: _ => throw "TypeError: Cannot read properties of undefined"
  | Some r :: rest => dataReader_then i r ;;; forEach_results rest (S i)
  end.

Definition profileKernel : Eff (option KernelOutput) :=
  result <- backendTimer_time None ;;
  forEach_results (as_results result) 0 ;;;
  ret result.

(** *** The reactions *)

(** [timer.then(timing => ...)] called by the reaction of read [i]. *)
Definition timer_then (i : nat) (rc : Reaction) (vals : BackendValues)
    : Eff unit :=
  fun w =>
    match timer w with
    | Pending => (Normal tt, set_waiting (waiting w ++ [(i, rc, vals)]) w)
    | Settled (Fulfilled timing) =>
        (Normal tt, set_queue (queue w ++ [JobLog i rc vals timing]) w)
    | Settled (Rejected e) =>
        (Normal tt, set_trace (trace w ++ [EvUnhandled e]) w)
    end.

(** The call the inner reaction makes on the logger. *)
Definition log_call (rc : Reaction) (vals : BackendValues)
    (timing : BackendTimingInfo) : LogCall :=
  let extraInfo :=
    match getExtraProfileInfo timing with
    | Some s => s
    | None => ""
    end in
  mkLogCall (rc_kernelName rc) (rc_r rc) vals (kernelMs timing)
            (rc_inputs rc) (Some extraInfo).

(** The bodies of the two closures, run on the variables they captured. *)
Definition job_body (j : Job) : Eff unit :=
  match j with
  | JobRead i rc vals =>
      found <- lift (checkComputationForErrors vals (dtype (rc_r rc))
                       (rc_kernelName rc)) ;;
      emit (EvCheck i found) ;;;
      timer_then i rc vals
  | JobLog i rc vals timing =>
      emit (EvLog i (log_call rc vals timing)) ;;;
      lift (log_method (logger this) (log_call rc vals timing))
  end.

(** Running a reaction job.  Nothing is chained on the promise its [then]
    returned, so an exception it throws rejects that promise and ends as an
    unhandled rejection, recorded here at the end of the job. *)
Definition run_job (j : Job) (w : World) : World :=
  match job_body j w with
  | (Normal _, w') => w'
  | (Throw e, w') => set_trace (trace w' ++ [EvUnhandled e]) w'
  end.

(** *** The backend settles promises *)

Inductive Settle : Set :=
| SettleRead (i : nat) (o : Outcome BackendValues)
| SettleTimer (o : Outcome BackendTimingInfo).

(** Settling a promise that is pending queues its reactions (or, for a
    rejection, rejects the promise [then] returned, which nobody handles).
    A promise settles once: later attempts do nothing.  Only the promises
    made by [profileKernel] are followed: the timer promise is the
    backend's, and its own rejection while no reaction is attached to it is
    not recorded as an event of the call. *)
Definition settle (s : Settle) (w : World) : World :=
  match s with
  | SettleRead i o =>
      match reads w !! i with
      | Some (rc, Pending) =>
          let w1 := set_reads (<[i := (rc, Settled o)]> (reads w))
                      (set_trace (trace w ++ [EvReadSettled i o]) w) in
          match o with
          | Fulfilled vals => set_queue (queue w1 ++ [JobRead i rc vals]) w1
          | Rejected e => set_trace (trace w1 ++ [EvUnhandled e]) w1
          end
      | _ => w
      end
  | SettleTimer o =>
      match timer w with
      | Pending =>
          let w1 := set_timer (Settled o)
                      (set_trace (trace w ++ [EvTimerSettled o]) w) in
          match o with
          | Fulfilled timing =>
              set_waiting []
                (set_queue
                   (queue w1 ++ map (waiter_job timing) (waiting w1)) w1)
          | Rejected e =>
              set_waiting []
                (set_trace
                   (trace w1 ++ map (fun _ => EvUnhandled e) (waiting w1)) w1)
          end
      | Settled _ => w
      end
  end.

(** One microtask: the job at the head of the queue runs; the jobs it
    queues go to the end. *)
Definition microtask (w : World) : World :=
  match queue w with
  | [] => w
  | j :: q => run_job j (set_queue q w)
  end.

Fixpoint drain (fuel : nat) (w : World) : World :=
  match fuel with
  | O => w
  | S n => drain n (microtask w)
  end.

(** The microtask checkpoint at the end of a task.  A [JobRead] queues at
    most one [JobLog] and a [JobLog] queues nothing, so twice the length of
    the queue is fuel enough (see [checkpoint_empties]). *)
Definition checkpoint (w : World) : World :=
  drain (2 * List.length (queue w)) w.

(** One task of the backend: it settles some promises, then the microtask
    queue is emptied. *)
Definition task (ss : list Settle) (w : World) : World :=
  checkpoint (fold_left (fun w s => settle s w) ss w).

(** A schedule: the tasks that run after [profileKernel] has returned. *)
Definition run (sched : list (list Settle)) (w : World) : World :=
  fold_left (fun w ss => task ss w) sched w.

(** The caller calls [profileKernel] and the schedule runs afterwards: what
    the caller received, and the world at the end. *)
Definition profile_and_run (sched : list (list Settle))
    : Completion (option KernelOutput) * World :=
  let cw := profileKernel start in
  (fst cw, run sched (snd cw)).

End Invocation.

(** ** Collaborators that throw *)

(** [profileKernel] has no [try]: an exception thrown while it runs by the
    compute closure, by [time] or by [dataReader] leaves it at once.  The
    definitions above take these three calls as returning; the ones below
    are the same code with collaborators that may throw. *)

(** A compute closure that may throw: how its [k]-th invocation (from 0)
    completes. *)
Definition ThrowingFn : Set := nat -> Completion KernelOutput.

(** What the backend may do during the call besides returning.  [time]
    makes its invocations of the wrapper one after the other, up to the
    first that throws.  What the wrapper throws escapes from [time], unless
    [time_catches]: a [time] written as an async function turns it into a
    rejection of the promise it returns, and returns that promise.
    [time_throws] is thrown by [time] itself, after its invocations of the
    wrapper; [read_throws i] is thrown by [dataReader] in round [i] of the
    loop. *)
Record Faults : Set := mkFaults {
  time_catches : bool;
  time_throws : option Error;
  read_throws : nat -> option Error
}.

Definition no_faults : Faults := mkFaults false None (fun _ => None).

(** A closure that returns, as one that may throw. *)
Definition returning (f : ComputeFn) : ThrowingFn := fun k => Normal (f k).

Section Throwing.

Variable faults : Faults.
Variable this : Profiler.
Variable kernelName : string.
Variable inputs : NamedTensorMap.
Variable F : ThrowingFn.

(** [() => { result = f(); }]: when [f] throws, nothing is assigned. *)
Definition holdResultWrapperFn_with (k : nat) : Eff (option KernelOutput) :=
  emit (EvCompute k) ;;;
  match F k with
  | Normal out => ret (Some out)
  | Throw e => throw e
  end.

(** The invocations of the wrapper made by [time]: the value of [result]
    after them, and what the wrapper threw, if it threw. *)
Fixpoint invoke_wrapper_with (n k : nat) (result : option KernelOutput)
    (w : World) : option KernelOutput * option Error * World :=
  match n with
  | O => (result, None, w)
  | S n' =>
      match holdResultWrapperFn_with k w with
      | (Normal r, w') => invoke_wrapper_with n' (S k) r w'
      | (Throw e, w') => (result, Some e, w')
      end
  end.

(** [this.backendTimer.time(holdResultWrapperFn)], returning the value of
    [result] after the call. *)
Definition backendTimer_time_with (result : option KernelOutput)
    : Eff (option KernelOutput) :=
  emit EvTime ;;;
  (fun w =>
     match invoke_wrapper_with (sync_calls (backendTimer this)) 0 result w with
     | (r, Some e, w') =>
         if time_catches faults then (Normal r, w') else (Throw e, w')
     | (r, None, w') =>
         match time_throws faults with
         | Some e => (Throw e, w')
         | None => (Normal r, w')
         end
     end).

(** [this.dataReader(r.dataId).then(vals => ...)]: when [dataReader]
    throws there is no promise and no reaction. *)
Definition dataReader_then_with (i : nat) (r : TensorInfo) : Eff unit :=
  emit (EvRead i (dataId r)) ;;;
  match read_throws faults i with
  | Some e => throw e
  | None =>
      fun w =>
        (Normal tt,
         set_reads (reads w ++ [(mkReaction kernelName inputs r, Pending)]) w)
  end.

Fixpoint forEach_results_with (rs : list (option TensorInfo)) (i : nat)
    : Eff unit :=
  match rs with
  | [] => ret tt
  | None :: _ => throw "TypeError: Cannot read properties of undefined"
  | Some r :: rest =>
      dataReader_then_with i r ;;; forEach_results_with rest (S i)
  end.

Definition profileKernel_with : Eff (option KernelOutput) :=
  result <- backendTimer_time_with None ;;
  forEach_results_with (as_results result) 0 ;;;
  ret result.

(** The call and the schedule after it.  The reads registered before an
    exception stay registered: their reactions run all the same. *)
Definition profile_and_run_with (sched : list (list Settle))
    : Completion (option KernelOutput) * World :=
  let cw := profileKernel_with start in
  (fst cw, run this sched (snd cw)).

End Throwing.

End Profiler.

(** * Notions used to state the properties *)

(** ** What [profileKernel] leaves when it returns *)

(** The descriptors of an output, as [results.forEach] visits them. *)
Definition outputs (out : KernelOutput) : list TensorInfo :=
  match out with
  | Single t => [t]
  | Several ts => ts
  end.

(** The [dataReader] calls of the loop, from index [i] on. *)
Fixpoint read_events (i : nat) (rs : list TensorInfo) : list Event :=
  match rs with
  | [] => []
  | r :: rest => EvRead i (dataId r) :: read_events (S i) rest
  end.

(** The pending promises of a list of reactions. *)
Definition pending_reads (rcs : list Reaction)
    : list (Reaction * PromiseState BackendValues) :=
  map (fun rc => (rc, Pending)) rcs.

(** The world in which [profileKernel] returns when the timer has run the
    wrapper [S k] times: the timer call, the invocations of [f], one read
    per descriptor of the last value of [f], every promise pending and no
    reaction run. *)
Definition world_at_return (kernelName : string) (inputs : NamedTensorMap)
    (f : ComputeFn) (k : nat) : World :=
  mkWorld (EvTime :: map EvCompute (seq 0 (S k))
             ++ read_events 0 (outputs (f k)))
          (pending_reads (map (mkReaction kernelName inputs) (outputs (f k))))
          Pending [] [].

(** ** Reading the trace *)

(** Counting the elements of a list that pass a test. *)
Definition count {A : Type} (p : A -> bool) (l : list A) : nat :=
  List.length (List.filter p l).

(** The events of one kind; for a logger call, of one output. *)
Definition is_log (i : nat) (ev : Event) : bool :=
  match ev with
  | EvLog k _ => Nat.eqb k i
  | _ => false
  end.

(** The events of the code that runs before [profileKernel] returns. *)
Definition is_call (ev : Event) : bool :=
  match ev with
  | EvTime | EvCompute _ | EvRead _ _ => true
  | _ => false
  end.

(** Code that runs before [profileKernel] returns: all it does to the
    world is to make calls and to add pending reads. *)
Definition calls_only {B : Type} (m : World -> B * World) : Prop :=
  forall w, exists evs rcs,
    snd (m w)
    = mkWorld (trace w ++ evs) (reads w ++ pending_reads rcs)
              (timer w) (waiting w) (queue w) /\
    forall ev, In ev evs -> is_call ev = true.



Definition is_read (ev : Event) : bool :=
  match ev with EvRead _ _ => true | _ => false end.

(** ** The steps of the run time, one by one *)

Section Steps.

Variable digits_of : number -> string.
Variable this : Profiler.

(** One step: the backend settles a pending promise, or the job at the head
    of the microtask queue runs.  [settle] and [microtask] make such steps
    ([settle_step], [microtask_step]). *)
Inductive step : World -> World -> Prop :=
| step_read_fulfilled w i r vals :
    reads w !! i = Some (r, Pending) ->
    step w (mkWorld (trace w ++ [EvReadSettled i (Fulfilled vals)])
                    (<[i := (r, Settled (Fulfilled vals))]> (reads w))
                    (timer w) (waiting w)
                    (queue w ++ [JobRead i r vals]))
| step_read_rejected w i r e :
    reads w !! i = Some (r, Pending) ->
    step w (mkWorld (trace w ++ [EvReadSettled i (Rejected e); EvUnhandled e])
                    (<[i := (r, Settled (Rejected e))]> (reads w))
                    (timer w) (waiting w) (queue w))
| step_timer_fulfilled w timing :
    timer w = Pending ->
    step w (mkWorld (trace w ++ [EvTimerSettled (Fulfilled timing)])
                    (reads w) (Settled (Fulfilled timing)) []
                    (queue w ++ map (waiter_job timing) (waiting w)))
| step_timer_rejected w e :
    timer w = Pending ->
    step w (mkWorld (trace w ++ EvTimerSettled (Rejected e)
                       :: map (fun _ => EvUnhandled e) (waiting w))
                    (reads w) (Settled (Rejected e)) [] (queue w))
| step_job_read_waits w i r vals q out b :
    queue w = JobRead i r vals :: q ->
    checkComputationForErrors digits_of vals (dtype (rc_r r)) (rc_kernelName r)
    = (out, Normal b) ->
    timer w = Pending ->
    step w (mkWorld (trace w ++ map EvConsole out ++ [EvCheck i b])
                    (reads w) (timer w) (waiting w ++ [(i, r, vals)]) q)
| step_job_read_queues w i r vals q out b timing :
    queue w = JobRead i r vals :: q ->
    checkComputationForErrors digits_of vals (dtype (rc_r r)) (rc_kernelName r)
    = (out, Normal b) ->
    timer w = Settled (Fulfilled timing) ->
    step w (mkWorld (trace w ++ map EvConsole out ++ [EvCheck i b])
                    (reads w) (timer w) (waiting w)
                    (q ++ [JobLog i r vals timing]))
| step_job_read_drops w i r vals q out b e :
    queue w = JobRead i r vals :: q ->
    checkComputationForErrors digits_of vals (dtype (rc_r r)) (rc_kernelName r)
    = (out, Normal b) ->
    timer w = Settled (Rejected e) ->
    step w (mkWorld (trace w ++ map EvConsole out
                       ++ [EvCheck i b; EvUnhandled e])
                    (reads w) (timer w) (waiting w) q)
| step_job_log w i r vals timing q out c :
    queue w = JobLog i r vals timing :: q ->
    log_method (logger this) (log_call r vals timing) = (out, c) ->
    step w (mkWorld (trace w ++ EvLog i (log_call r vals timing)
                       :: map EvConsole out
                       ++ match c with
                          | Normal _ => []
                          | Throw e => [EvUnhandled e]
                          end)
                    (reads w) (timer w) (waiting w) q).

End Steps.

(** ** The invariant of a run *)

(** The index of the output a job works for. *)
Definition job_index (j : Job) : nat :=
  match j with
  | JobRead i _ _ => i
  | JobLog i _ _ _ => i
  end.

Definition job_for (i : nat) (j : Job) : bool := Nat.eqb (job_index j) i.

Definition waiter_for (i : nat) (x : nat * Reaction * BackendValues) : bool :=
  Nat.eqb (fst (fst x)) i.

(** The work in flight or done for output [i]: its reaction jobs in the
    queue, its reactions waiting for the timer, its logger calls. *)
Definition tokens (i : nat) (w : World) : nat :=
  count (job_for i) (queue w) + count (waiter_for i) (waiting w)
  + count (is_log i) (trace w).

(** The read of output [i], whose reaction is [r], was fulfilled with
    [vals]. *)
Definition settled_read (w : World) (i : nat) (r : Reaction)
    (vals : BackendValues) : Prop :=
  reads w !! i = Some (r, Settled (Fulfilled vals)).

(** The read of output [i] was fulfilled with [vals], and later the
    validation of output [i] returned. *)
Definition checked (tr : list Event) (i : nat) (vals : BackendValues) : Prop :=
  exists b, [EvReadSettled i (Fulfilled vals); EvCheck i b] `sublist_of` tr.

Record Inv (w : World) : Prop := mkInv {
  (* a queued reaction of a read: the read was fulfilled with its values *)
  inv_job_read : forall i r vals,
    In (JobRead i r vals) (queue w) ->
    settled_read w i r vals /\ In (EvReadSettled i (Fulfilled vals)) (trace w);
  (* a reaction waits for the timer only while the timer is pending, and
     after the validation of its values *)
  inv_waiting : forall i r vals,
    In (i, r, vals) (waiting w) ->
    timer w = Pending /\ settled_read w i r vals /\ checked (trace w) i vals;
  (* a queued logging reaction carries the timing the timer was fulfilled
     with *)
  inv_job_log : forall i r vals timing,
    In (JobLog i r vals timing) (queue w) ->
    timer w = Settled (Fulfilled timing) /\ settled_read w i r vals /\
    checked (trace w) i vals;
  inv_timer : forall o,
    timer w = Settled o -> In (EvTimerSettled o) (trace w);
  (* every logger call: its arguments, and what came before it *)
  inv_log : forall pre post i c,
    trace w = pre ++ EvLog i c :: post ->
    exists r vals timing,
      settled_read w i r vals /\ timer w = Settled (Fulfilled timing) /\
      c = log_call r vals timing /\
      checked pre i vals /\ In (EvTimerSettled (Fulfilled timing)) pre;
  (* at most one piece of work per output, and exactly one from the
     fulfilment of its read on, as long as the timer is not rejected *)
  inv_tokens_le : forall i, tokens i w <= 1;
  inv_tokens_one : forall i r vals,
    settled_read w i r vals ->
    (forall e, timer w <> Settled (Rejected e)) ->
    tokens i w = 1
}.

(** A bound on the microtasks a queue can still cause: a reaction of a read
    may queue one logging reaction. *)
Definition job_weight (j : Job) : nat :=
  match j with
  | JobRead _ _ _ => 2
  | JobLog _ _ _ _ => 1
  end.

Fixpoint queue_weight (q : list Job) : nat :=
  match q with
  | [] => 0
  | j :: q' => job_weight j + queue_weight q'
  end.

(** A rejected read leaves an unhandled rejection. *)
Definition rejections_unhandled (w : World) : Prop :=
  forall i e,
    In (EvReadSettled i (Rejected e)) (trace w) -> In (EvUnhandled e) (trace w).

(** A logger call that throws leaves an unhandled rejection. *)
Definition throws_unhandled (this : Profiler) (w : World) : Prop :=
  forall i c out e,
    In (EvLog i c) (trace w) ->
    log_method (logger this) c = (out, Throw e) ->
    In (EvUnhandled e) (trace w).


(** ** More readings of the trace *)

Definition is_check (i : nat) (ev : Event) : bool :=
  match ev with
  | EvCheck k _ => Nat.eqb k i
  | _ => false
  end.

Definition is_job_read (i : nat) (j : Job) : bool :=
  match j with
  | JobRead k _ _ => Nat.eqb k i
  | JobLog _ _ _ _ => false
  end.

(** A validation, a logger call, of whatever output. *)
Definition any_check (ev : Event) : bool :=
  match ev with EvCheck _ _ => true | _ => false end.

Definition any_log (ev : Event) : bool :=
  match ev with EvLog _ _ => true | _ => false end.

(** The validation of output [i]: still to run, or run. *)
Definition check_tokens (i : nat) (w : World) : nat :=
  count (is_job_read i) (queue w) + count (is_check i) (trace w).

(** The outputs in the order in which they were validated, in which they
    were logged, in which their logging reactions are queued and in which
    their reactions wait for the timer. *)
Definition check_order (tr : list Event) : list nat :=
  omap (fun ev => match ev with EvCheck i _ => Some i | _ => None end) tr.

Definition log_order (tr : list Event) : list nat :=
  omap (fun ev => match ev with EvLog i _ => Some i | _ => None end) tr.

Definition job_log_order (q : list Job) : list nat :=
  omap (fun j => match j with JobLog i _ _ _ => Some i | _ => None end) q.

Definition waiting_order (ws : list (nat * Reaction * BackendValues))
    : list nat :=
  map (fun x => fst (fst x)) ws.

(** What ends a reaction job: nothing more, or the unhandled rejection of
    the exception it threw. *)
Definition rejection_of (c : Completion unit) : list Event :=
  match c with
  | Normal _ => []
  | Throw e => [EvUnhandled e]
  end.

Section Readings.

Variable digits_of : number -> string.
Variable this : Profiler.

(** Every validation in the trace ran on the values its read was fulfilled
    with, and what it wrote to the console stands right before it. *)
Definition checks_justified (w : World) : Prop :=
  forall pre post i b,
    trace w = pre ++ EvCheck i b :: post ->
    exists rc vals out,
      settled_read w i rc vals /\
      checkComputationForErrors digits_of vals (dtype (rc_r rc))
        (rc_kernelName rc) = (out, Normal b) /\
      exists pre', pre = pre' ++ map EvConsole out.

(** From the fulfilment of a read on, its validation is queued or done,
    once. *)
Definition checks_counted (w : World) : Prop :=
  forall i rc vals, settled_read w i rc vals -> check_tokens i w = 1.

(** The logger is called in the order of the validations. *)
Definition log_order_kept (w : World) : Prop :=
  (forall e, timer w <> Settled (Rejected e)) ->
  check_order (trace w)
  = log_order (trace w) ++ job_log_order (queue w)
    ++ waiting_order (waiting w).

(** Every logger call is followed at once by what the logger wrote and, if
    it threw, by the rejection of the promise of its reaction. *)
Definition logs_followed (w : World) : Prop :=
  forall pre post i c,
    trace w = pre ++ EvLog i c :: post ->
    exists rest,
      post = map EvConsole (fst (log_method (logger this) c))
             ++ rejection_of (snd (log_method (logger this) c)) ++ rest.

(** Whatever is written to the console comes from a validation or from the
    logger. *)
Definition console_explained (w : World) : Prop :=
  forall o,
    In (EvConsole o) (trace w) ->
    (exists i rc vals,
       settled_read w i rc vals /\
       In o (fst (checkComputationForErrors digits_of vals (dtype (rc_r rc))
                    (rc_kernelName rc)))) \/
    (exists i c,
       In (EvLog i c) (trace w) /\ In o (fst (log_method (logger this) c))).

(** An unhandled rejection has one of three causes: a rejected read, the
    rejected timer, an exception of the logger. *)
Definition unhandled_explained (w : World) : Prop :=
  forall e,
    In (EvUnhandled e) (trace w) ->
    (exists i, In (EvReadSettled i (Rejected e)) (trace w)) \/
    In (EvTimerSettled (Rejected e)) (trace w) \/
    (exists i c out,
       In (EvLog i c) (trace w) /\
       log_method (logger this) c = (out, Throw e)).

End Readings.

(** ** Worked runs *)

(** The run of the specification: kernel "Add", inputs [a] and [b] of shape
    [2,2], one float32 output of shape [2,2] with values [1,2,3,4], a timer
    that runs the wrapper once and reports 7 ms without extra
    information, and the default logger.  Only integers are printed, so the
    digits of other numbers are never asked for. *)
Definition no_digits (x : number) : string := "".

Definition matrix22 (d : DataId) : TensorInfo :=
  mkTensorInfo d [of_Z 2; of_Z 2] float32.

Definition add_inputs : NamedTensorMap :=
  [("a", matrix22 1); ("b", matrix22 2)].

Definition add_profiler : Profiler :=
  new_Profiler no_digits (mkBackendTimer 1) None.

Definition add_f : ComputeFn := fun _ => Single (matrix22 3).

Definition add_vals : BackendValues := [of_Z 1; of_Z 2; of_Z 3; of_Z 4].

Definition add_timing : BackendTimingInfo := mkTiming (of_Z 7) None.

Definition add_sched : list (list Settle) :=
  [[SettleRead 0 (Fulfilled add_vals)]; [SettleTimer (Fulfilled add_timing)]].

Definition add_log_call : LogCall :=
  mkLogCall "Add" (matrix22 3) add_vals (of_Z 7) add_inputs (Some "").

Definition add_line : Output :=
  ConsoleLog
    ("%cAdd                      " +:+ tab +:+ "%c7ms      " +:+ tab
     +:+ "%c2D 2,2           " +:+ tab +:+ "%c4" +:+ tab
     +:+ "%ca: 2D 2,2 b: 2D 2,2 " +:+ tab +:+ "%c")
    log_styles.

(** Two outputs; the timer is fulfilled first and both reads in one task:
    both validations run before both logger calls. *)
Definition pair_f : ComputeFn := fun _ => Several [matrix22 3; matrix22 4].

Definition pair_sched : list (list Settle) :=
  [[SettleTimer (Fulfilled add_timing);
    SettleRead 1 (Fulfilled [NaN]);
    SettleRead 0 (Fulfilled [Infinity; NegInfinity])]].

(** A logger that throws, a read that is rejected. *)
Definition broken_logger : Logger :=
  mkLogger (fun _ => ([], Throw "logger failed")).

Definition broken_profiler : Profiler :=
  new_Profiler no_digits (mkBackendTimer 1) (Some broken_logger).

Definition broken_sched : list (list Settle) :=
  [[SettleRead 0 (Rejected "read failed")];
   [SettleRead 1 (Fulfilled add_vals)];
   [SettleTimer (Fulfilled add_timing)]].

(** A logger that writes the kernel name to the console and then throws. *)
Definition noisy_logger : Logger :=
  mkLogger (fun c => ([ConsoleLog (lc_name c) []], Throw "logger failed")).

Definition noisy_profiler : Profiler :=
  new_Profiler no_digits (mkBackendTimer 1) (Some noisy_logger).


(** A timer that returns without running the wrapper, and one that runs it
    twice, with a compute closure whose two invocations differ. *)
Definition lazy_profiler : Profiler :=
  new_Profiler no_digits (mkBackendTimer 0) None.



(** A compute closure that throws, a timer that throws after it has run
    the wrapper, a data reader that throws for the second output. *)
Definition failing_f : ThrowingFn := fun _ => Throw "kernel failed".

Definition failing_timer : Faults :=
  mkFaults false (Some "timer failed") (fun _ => None).

Definition failing_reader : Faults :=
  mkFaults false None
    (fun i => match i with 1 => Some "read refused" | _ => None end).

(** A timer written as an async function: what the wrapper throws becomes
    a rejection of the timer promise. *)
Definition async_timer : Faults := mkFaults true None (fun _ => None).

(** The read is fulfilled with a NaN, then the timer is rejected. *)
Definition untimed_sched : list (list Settle) :=
  [[SettleRead 0 (Fulfilled [NaN])]; [SettleTimer (Rejected "no timing")]].

(** * Properties *)

(** ** Output validation *)

Section Validation.

Variable digits_of : number -> string.

Local Abbreviation warning num kernelName :=
  (ConsoleWarn ("Found " +:+ number_to_string digits_of num
                +:+ " in the result of '" +:+ kernelName +:+ "'")).

(** A value is reported exactly when it is NaN or an infinity. *)
Lemma offending_cases (num : number) :
  isNaN num || negb (isFinite num) = true <->
  num = NaN \/ num = Infinity \/ num = NegInfinity.
Proof.
  unfold NaN, Infinity, NegInfinity.
  destruct num as [s | [] | | s m e]; simpl; split; intros H;
    try discriminate; auto;
    destruct H as [H | [H | H]]; discriminate.
Qed.

Lemma offending_spec (num : number) :
  isNaN num || negb (isFinite num) = true <->
  isNaN num = true \/ isFinite num = false.
Proof.
  rewrite orb_true_iff, negb_true_iff. reflexivity.
Qed.

(** The loop never throws, and says [true] exactly when some element is
    offending. *)
Lemma scan_vals_result (vals : BackendValues) (kernelName : string) :
  snd (scan_vals digits_of vals kernelName)
  = Normal (existsb (fun num => isNaN num || negb (isFinite num)) vals).
Proof.
  induction vals as [| num rest IH]; simpl; [reflexivity |].
  destruct (isNaN num || negb (isFinite num)); simpl; [reflexivity | exact IH].
Qed.

(** Up to the first offending element nothing is written; the element
    itself is reported, and what follows it is not looked at. *)
Lemma scan_vals_first (pre : BackendValues) (num : number)
    (post : BackendValues) (kernelName : string) :
  Forall (fun x => isNaN x || negb (isFinite x) = false) pre ->
  isNaN num || negb (isFinite num) = true ->
  scan_vals digits_of (pre ++ num :: post) kernelName
  = ([warning num kernelName], Normal true).
Proof.
  intros Hpre Hnum. induction Hpre as [| x pre Hx _ IH]; simpl.
  - rewrite Hnum. reflexivity.
  - rewrite Hx. exact IH.
Qed.

(** Values without NaN and infinities: nothing is written, the result is
    [false]. *)
Lemma scan_vals_clean (vals : BackendValues) (kernelName : string) :
  Forall (fun x => isNaN x || negb (isFinite x) = false) vals ->
  scan_vals digits_of vals kernelName = ([], Normal false).
Proof.
  intros H. induction H as [| x l Hx _ IH]; simpl; [reflexivity |].
  rewrite Hx. exact IH.
Qed.

(** Splitting a sequence at its first offending element. *)
Lemma find_first_split (vals : BackendValues) (num : number) :
  find (fun x => isNaN x || negb (isFinite x)) vals = Some num ->
  exists pre post,
    vals = pre ++ num :: post /\
    Forall (fun x => isNaN x || negb (isFinite x) = false) pre /\
    isNaN num || negb (isFinite num) = true.
Proof.
  induction vals as [| x rest IH]; simpl; [discriminate |].
  destruct (isNaN x || negb (isFinite x)) eqn:Hx.
  - intros [= <-]. exists [], rest. auto.
  - intros H. destruct (IH H) as (pre & post & -> & Hpre & Hnum).
    exists (x :: pre), post. repeat split; auto.
Qed.

Lemma exists_offending_find (vals : BackendValues) :
  (exists v, In v vals /\ (isNaN v = true \/ isFinite v = false)) ->
  exists num, find (fun x => isNaN x || negb (isFinite x)) vals = Some num.
Proof.
  intros (v & Hin & Hv).
  destruct (find (fun x => isNaN x || negb (isFinite x)) vals) eqn:Hf;
    [eauto |].
  exfalso. apply (find_none _ _ Hf) in Hin.
  apply offending_spec in Hv. congruence.
Qed.

(** The function never throws. *)
Lemma checkComputationForErrors_normal
    (vals : BackendValues) (dtype : DataType) (kernelName : string) :
  exists b,
    snd (checkComputationForErrors digits_of vals dtype kernelName) = Normal b.
Proof.
  unfold checkComputationForErrors.
  destruct (negb (DataType_eqb dtype float32)); [now exists false |].
  rewrite scan_vals_result. eauto.
Qed.

(** C2. [checkComputationForErrors] returns a boolean, which is true exactly
    when the data type is float32 and some value is NaN or not finite; for
    every other data type it returns false and writes nothing, whatever the
    values are. *)
Theorem checkComputationForErrors_true_iff
    (vals : BackendValues) (dtype : DataType) (kernelName : string) :
  (exists b,
     snd (checkComputationForErrors digits_of vals dtype kernelName) = Normal b /\
     (b = true <->
      dtype = float32 /\
      exists v, In v vals /\ (isNaN v = true \/ isFinite v = false))) /\
  (dtype <> float32 ->
   forall vals' : BackendValues,
     checkComputationForErrors digits_of vals' dtype kernelName
     = ([], Normal false)).
Proof.
  split.
  - unfold checkComputationForErrors.
    destruct dtype; simpl;
      try (exists false; split; [reflexivity |];
           split; [discriminate | intros [H _]; discriminate]).
    exists (existsb (fun num => isNaN num || negb (isFinite num)) vals).
    split; [apply scan_vals_result |].
    rewrite existsb_exists. split.
    + intros (v & Hin & Hv). split; [reflexivity |].
      exists v. split; [exact Hin | apply offending_spec, Hv].
    + intros (_ & v & Hin & Hv). exists v.
      split; [exact Hin | apply offending_spec, Hv].
  - intros Hne vals'. unfold checkComputationForErrors.
    destruct dtype; simpl; try reflexivity. congruence.
Qed.

(** C4. On float32 values with at least one NaN or non-finite element, the
    function writes exactly one warning and returns true.  The warning is
    made of the first such element, which prints as NaN, Infinity or
    -Infinity, and of the kernel name; the elements after that first one
    play no part, whatever they are. *)
Theorem checkComputationForErrors_warns_first
    (vals : BackendValues) (kernelName : string) :
  (exists v, In v vals /\ (isNaN v = true \/ isFinite v = false)) ->
  exists (pre : BackendValues) (num : number) (post : BackendValues)
         (text : string),
    vals = pre ++ num :: post /\
    Forall (fun x => isNaN x = false /\ isFinite x = true) pre /\
    (num = NaN /\ text = "NaN" \/
     num = Infinity /\ text = "Infinity" \/
     num = NegInfinity /\ text = "-Infinity") /\
    forall post' : BackendValues,
      checkComputationForErrors digits_of (pre ++ num :: post') float32 kernelName
      = ([ConsoleWarn ("Found " +:+ text +:+ " in the result of '"
                       +:+ kernelName +:+ "'")],
         Normal true).
Proof.
  intros Hex. destruct (exists_offending_find vals Hex) as [num Hf].
  destruct (find_first_split vals num Hf) as (pre & post & Hv & Hpre & Hnum).
  assert (Hclean : Forall (fun x => isNaN x = false /\ isFinite x = true) pre).
  { eapply Forall_impl; [exact Hpre |]. simpl. intros x Hx.
    apply orb_false_iff in Hx. destruct Hx as [H1 H2].
    apply negb_false_iff in H2. auto. }
  assert (Hout : forall post' : BackendValues,
             checkComputationForErrors digits_of (pre ++ num :: post')
               float32 kernelName
             = ([warning num kernelName], Normal true)).
  { intros post'. unfold checkComputationForErrors. simpl.
    apply scan_vals_first; assumption. }
  apply offending_cases in Hnum.
  destruct Hnum as [-> | [-> | ->]].
  - exists pre, NaN, post, "NaN". auto 6.
  - exists pre, Infinity, post, "Infinity". auto 7.
  - exists pre, NegInfinity, post, "-Infinity". auto 7.
Qed.

End Validation.

Lemma checkComputationForErrors_true_iff_witness :
  int32 <> float32 /\
  checkComputationForErrors (fun _ => "") [NaN; Infinity] int32 "Cast"
  = ([], Normal false).
Proof.
  split; [discriminate |].
  apply (proj2 (checkComputationForErrors_true_iff (fun _ => "")
                  [] int32 "Cast")).
  discriminate.
Defined.

(** The example of the specification: [[1.0, NaN, 3.0]] gives the one
    warning "Found NaN in the result of 'Add'". *)
Lemma checkComputationForErrors_warns_first_witness :
  (exists v, In v [of_Z 1; NaN; of_Z 3] /\
             (isNaN v = true \/ isFinite v = false)) /\
  checkComputationForErrors (fun _ => "") [of_Z 1; NaN; of_Z 3] float32 "Add"
  = ([ConsoleWarn "Found NaN in the result of 'Add'"], Normal true).
Proof.
  assert (Hex : exists v, In v [of_Z 1; NaN; of_Z 3] /\
                          (isNaN v = true \/ isFinite v = false)).
  { exists NaN. split; [simpl; auto | left; reflexivity]. }
  split; [exact Hex |].
  destruct (checkComputationForErrors_warns_first (fun _ => "")
              [of_Z 1; NaN; of_Z 3] "Add" Hex)
    as (pre & num & post & text & Hv & Hpre & Htext & Hout).
  rewrite Hv, (Hout post).
  destruct pre as [| x [| y pre]].
  - injection Hv as Hnum _. exfalso.
    destruct Htext as [[-> _] | [[-> _] | [-> _]]]; discriminate Hnum.
  - injection Hv as _ Hnum _.
    destruct Htext as [[_ ->] | [[-> _] | [-> _]]];
      [reflexivity | discriminate Hnum | discriminate Hnum].
  - injection Hv as _ Hy _. exfalso.
    apply Forall_cons_iff in Hpre as [_ Hpre].
    apply Forall_cons_iff in Hpre as [[Hy' _] _].
    rewrite <- Hy in Hy'. discriminate Hy'.
Defined.

Example check_1_NaN_3 (digits_of : number -> string) (kernelName : string) :
  checkComputationForErrors digits_of [of_Z 1; NaN; of_Z 3] float32 kernelName
  = ([ConsoleWarn ("Found NaN in the result of '" +:+ kernelName +:+ "'")],
     Normal true).
Proof. reflexivity. Qed.

Example check_int32_ignores_content (digits_of : number -> string) :
  checkComputationForErrors digits_of [NaN; Infinity] int32 "Cast"
  = ([], Normal false).
Proof. reflexivity. Qed.

(** ** The logger *)

Lemma append_empty_r (s : string) : s +:+ "" = s.
Proof. induction s as [| a s IH]; simpl; [reflexivity | now rewrite IH]. Qed.

Lemma append_assoc (s t u : string) : (s +:+ t) +:+ u = s +:+ (t +:+ u).
Proof. induction s as [| a s IH]; simpl; [reflexivity | now rewrite IH]. Qed.

Lemma length_append (s t : string) :
  String.length (s +:+ t) = String.length s + String.length t.
Proof. induction s as [| a s IH]; simpl; [reflexivity | now rewrite IH]. Qed.

Lemma length_repeat_space (n : nat) : String.length (repeat_string " " n) = n.
Proof. induction n as [| n IH]; simpl; [reflexivity | now rewrite IH]. Qed.

(** The padding is made of blanks and follows the text. *)
Lemma rightPad_blanks (a : string) (size : nat) :
  rightPad a size = a +:+ repeat_string " " (size - String.length a).
Proof.
  unfold rightPad. destruct (Nat.leb size (String.length a)) eqn:E.
  - apply Nat.leb_le in E.
    replace (size - String.length a) with 0 by lia.
    simpl. now rewrite append_empty_r.
  - reflexivity.
Qed.

(** A padded column is [size] wide, unless the text is wider. *)
Lemma rightPad_length (a : string) (size : nat) :
  String.length (rightPad a size) = Nat.max size (String.length a).
Proof.
  rewrite rightPad_blanks, length_append, length_repeat_space. lia.
Qed.

Section LoggerFacts.

Variable digits_of : number -> string.

Lemma describe_inputs_from (inputs : NamedTensorMap) (acc : string) :
  fold_left (fun acc nt => acc +:+ describe_input digits_of (fst nt) (snd nt))
            inputs acc
  = acc +:+ fold_right
              (fun nt rest => describe_input digits_of (fst nt) (snd nt) +:+ rest)
              "" inputs.
Proof.
  revert acc. induction inputs as [| nt inputs IH]; intros acc; simpl.
  - now rewrite append_empty_r.
  - rewrite IH. apply append_assoc.
Qed.

(** The blanks of a padding, as a list of characters. *)
Lemma repeat_string_blanks (n : nat) :
  repeat_string " " n = string_of_list_ascii (List.repeat " "%char n).
Proof. induction n as [| n IH]; simpl; [reflexivity | now rewrite IH]. Qed.

(** What one input contributes, written out: for rank 0 the list of
    dimensions is empty and so is its text. *)
Lemma describe_input_text (name : string) (input : TensorInfo) :
  describe_input digits_of name input
  = name +:+ ": "
      +:+ NilZero.string_of_uint (Nat.to_uint (List.length (shape input)))
      +:+ "D "
      +:+ String.concat "," (map (number_to_string digits_of) (shape input))
      +:+ " ".
Proof.
  unfold describe_input, array_to_string, decimal_of_nat.
  destruct (shape input); reflexivity.
Qed.

(** Elements joined by commas: the first, then each other one after a
    comma. *)
Lemma concat_commas (d : string) (ds : list string) :
  String.concat "," (d :: ds)
  = d +:+ fold_right (fun x rest => "," +:+ x +:+ rest) "" ds.
Proof.
  revert d. induction ds as [| x ds IH]; intros d.
  - simpl. now rewrite append_empty_r.
  - change (String.concat "," (d :: x :: ds))
      with (d +:+ "," +:+ String.concat "," (x :: ds)).
    rewrite IH. reflexivity.
Qed.

Lemma describe_inputs_text (inputs : NamedTensorMap)
    (text : string * list string -> string) :
  (forall nt,
     In nt inputs ->
     describe_input digits_of (fst nt) (snd nt)
     = text (fst nt, map (number_to_string digits_of) (shape (snd nt)))) ->
  describe_inputs digits_of inputs
  = fold_right String.append ""
      (map text
         (combine (map fst inputs)
            (map (fun nt => map (number_to_string digits_of) (shape (snd nt)))
               inputs))).
Proof.
  unfold describe_inputs. rewrite describe_inputs_from. simpl.
  induction inputs as [| nt inputs IH]; intros H; simpl; [reflexivity |].
  rewrite (H nt) by (now left). f_equal.
  apply IH. intros nt' Hin. apply H. now right.
Qed.

(** C9. One call of [logKernelProfile] makes exactly one [console.log] call
    and nothing else.  With the texts of the numbers involved given (the
    time, the dimensions of the output, its element count, the dimensions
    of every input), its line is made of six columns, each after the style
    directive "%c" and separated by tabs, in this order: the kernel name
    followed by blanks up to width 25; the time followed by "ms" and by
    blanks up to width 9; the output rank, "D " and the dimensions joined
    by commas, these followed by blanks up to width 14; the element count;
    for each input in order its name, ": ", its rank, "D ", its dimensions
    joined by commas and a blank; the extra-info string, or "undefined" when
    that argument is left out.  The blanks of a padded column stand to the
    right of its text, and a text that is too wide is not cut. *)
Theorem logKernelProfile_line
    (name : string) (result : TensorInfo) (vals : BackendValues)
    (timeMs : number) (inputs : NamedTensorMap) (extraInfo : option string)
    (time_text size_text : string) (dims_text : list string)
    (inputs_text : list (list string)) :
  number_to_string digits_of timeMs = time_text ->
  map (number_to_string digits_of) (shape result) = dims_text ->
  number_to_string digits_of (sizeFromShape (shape result)) = size_text ->
  map (fun nt => map (number_to_string digits_of) (shape (snd nt))) inputs
  = inputs_text ->
  let TAB := String (ascii_of_nat 9) "" in
  let blanks := fun n => string_of_list_ascii (List.repeat " "%char n) in
  let padded := fun text width => text +:+ blanks (width - String.length text) in
  let decimal := fun n => NilZero.string_of_uint (Nat.to_uint n) in
  let input_text := fun nd : string * list string =>
    fst nd +:+ ": " +:+ decimal (List.length (snd nd)) +:+ "D "
        +:+ String.concat "," (snd nd) +:+ " " in
  logKernelProfile digits_of name result vals timeMs inputs extraInfo
  = ([ConsoleLog
        ("%c" +:+ padded name 25 +:+ TAB +:+
         "%c" +:+ padded (time_text +:+ "ms") 9 +:+ TAB +:+
         "%c" +:+ decimal (List.length dims_text) +:+ "D "
              +:+ padded (String.concat "," dims_text) 14 +:+ TAB +:+
         "%c" +:+ size_text +:+ TAB +:+
         "%c" +:+ fold_right String.append ""
                    (map input_text (combine (map fst inputs) inputs_text))
              +:+ TAB +:+
         "%c" +:+ match extraInfo with
                  | Some info => info
                  | None => "undefined"
                  end)
        ["font-weight:bold"; "color:red"; "color:blue"; "color: orange";
         "color: green"; "color: steelblue"]],
     Normal tt).
Proof.
  intros <- <- <- <- TAB blanks padded decimal input_text.
  unfold logKernelProfile, console_log, log_styles.
  rewrite !rightPad_blanks, !repeat_string_blanks.
  rewrite (describe_inputs_text inputs input_text)
    by (intros nt _; rewrite describe_input_text; unfold input_text, decimal;
        simpl; now rewrite length_map).
  rewrite length_map.
  unfold array_to_string, decimal_of_nat, optional_to_string, tab.
  reflexivity.
Qed.

(** C10. In the inputs column every input contributes, in order: for rank 0
    its name and ": 0D  ", with nothing for the shape; for a higher rank
    its name, ": ", the rank, "D ", the texts of all its dimensions
    separated by commas, and a blank.  The column starts after a tab and
    its style directive, and ends at the tab of the last column. *)
Theorem logKernelProfile_input_descriptions
    (name : string) (result : TensorInfo) (vals : BackendValues)
    (timeMs : number) (inputs : NamedTensorMap) (extraInfo : option string)
    (inputs_text : list (list string)) :
  map (fun nt => map (number_to_string digits_of) (shape (snd nt))) inputs
  = inputs_text ->
  let TAB := String (ascii_of_nat 9) "" in
  let decimal := fun n => NilZero.string_of_uint (Nat.to_uint n) in
  let input_text := fun nd : string * list string =>
    match snd nd with
    | [] => fst nd +:+ ": 0D  "
    | d :: ds =>
        fst nd +:+ ": " +:+ decimal (S (List.length ds)) +:+ "D "
            +:+ d +:+ fold_right (fun x rest => "," +:+ x +:+ rest) "" ds
            +:+ " "
    end in
  exists before : string,
    logKernelProfile digits_of name result vals timeMs inputs extraInfo
    = ([ConsoleLog
          (before +:+ TAB +:+ "%c"
           +:+ fold_right String.append ""
                 (map input_text (combine (map fst inputs) inputs_text))
           +:+ TAB +:+ "%c"
           +:+ match extraInfo with
               | Some info => info
               | None => "undefined"
               end)
          ["font-weight:bold"; "color:red"; "color:blue"; "color: orange";
           "color: green"; "color: steelblue"]],
       Normal tt).
Proof.
  intros <- TAB decimal input_text.
  exists ("%c" +:+ rightPad name 25 +:+ TAB +:+ "%c"
          +:+ rightPad (number_to_string digits_of timeMs +:+ "ms") 9
          +:+ TAB +:+ "%c"
          +:+ decimal (List.length (shape result)) +:+ "D "
          +:+ rightPad (array_to_string digits_of (shape result)) 14
          +:+ TAB +:+ "%c"
          +:+ number_to_string digits_of (sizeFromShape (shape result))).
  unfold logKernelProfile, console_log, log_styles.
  rewrite (describe_inputs_text inputs input_text).
  - do 2 f_equal. f_equal.
    unfold optional_to_string, tab, decimal_of_nat, decimal, TAB.
    repeat rewrite append_assoc. simpl.
    repeat (f_equal; try (repeat rewrite append_assoc; simpl)).
  - intros [input_name input] _. rewrite describe_input_text.
    unfold input_text. simpl.
    destruct (shape input) as [| d ds]; [reflexivity |].
    change (map (number_to_string digits_of) (d :: ds))
      with (number_to_string digits_of d :: map (number_to_string digits_of) ds).
    rewrite concat_commas. cbv beta iota.
    rewrite length_map, append_assoc. reflexivity.
Qed.

End LoggerFacts.

(** The run of the specification, with a scalar input added: kernel "Add",
    7 ms, an output of shape [2,2]. *)
Lemma logKernelProfile_line_witness :
  (number_to_string (fun _ => "") (of_Z 7) = "7" /\
   map (number_to_string (fun _ => "")) (shape (mkTensorInfo 3 [of_Z 2; of_Z 2] float32))
   = ["2"; "2"] /\
   number_to_string (fun _ => "")
     (sizeFromShape (shape (mkTensorInfo 3 [of_Z 2; of_Z 2] float32))) = "4" /\
   map (fun nt => map (number_to_string (fun _ => "")) (shape (snd nt)))
     [("a", mkTensorInfo 1 [of_Z 2; of_Z 2] float32);
      ("b", mkTensorInfo 2 [of_Z 2; of_Z 2] float32)]
   = [["2"; "2"]; ["2"; "2"]]) /\
  let TAB := String (ascii_of_nat 9) "" in
  logKernelProfile (fun _ => "") "Add"
    (mkTensorInfo 3 [of_Z 2; of_Z 2] float32)
    [of_Z 1; of_Z 2; of_Z 3; of_Z 4] (of_Z 7)
    [("a", mkTensorInfo 1 [of_Z 2; of_Z 2] float32);
     ("b", mkTensorInfo 2 [of_Z 2; of_Z 2] float32)]
    (Some "")
  = ([ConsoleLog
        ("%cAdd                      " +:+ TAB +:+ "%c7ms      " +:+ TAB
         +:+ "%c2D 2,2           " +:+ TAB +:+ "%c4" +:+ TAB
         +:+ "%ca: 2D 2,2 b: 2D 2,2 " +:+ TAB +:+ "%c")
        ["font-weight:bold"; "color:red"; "color:blue"; "color: orange";
         "color: green"; "color: steelblue"]],
     Normal tt).
Proof.
  split; [repeat split |].
  intros TAB.
  rewrite (logKernelProfile_line (fun _ => "") "Add"
             (mkTensorInfo 3 [of_Z 2; of_Z 2] float32)
             [of_Z 1; of_Z 2; of_Z 3; of_Z 4] (of_Z 7)
             [("a", mkTensorInfo 1 [of_Z 2; of_Z 2] float32);
              ("b", mkTensorInfo 2 [of_Z 2; of_Z 2] float32)]
             (Some "") "7" "4" ["2"; "2"] [["2"; "2"]; ["2"; "2"]]
             eq_refl eq_refl eq_refl eq_refl).
  reflexivity.
Defined.

(** The name column of that line is "Add" followed by 22 blanks: the line
    does not begin with the name pushed to the right by 22 blanks, as a
    column padded on the left would. *)
Lemma logKernelProfile_not_left_padded :
  ~ exists rest : string,
      logKernelProfile (fun _ => "") "Add"
        (mkTensorInfo 3 [of_Z 2; of_Z 2] float32)
        [of_Z 1; of_Z 2; of_Z 3; of_Z 4] (of_Z 7)
        [("a", mkTensorInfo 1 [of_Z 2; of_Z 2] float32);
         ("b", mkTensorInfo 2 [of_Z 2; of_Z 2] float32)]
        (Some "")
      = ([ConsoleLog ("%c                      Add" +:+ rest) log_styles],
         Normal tt).
Proof.
  intros [rest H]. vm_compute in H. discriminate H.
Qed.

(** A scalar input and a matrix input: the first is described without a
    shape, the second with its two dimensions. *)
Lemma logKernelProfile_input_descriptions_witness :
  map (fun nt => map (number_to_string (fun _ => "")) (shape (snd nt)))
    [("s", mkTensorInfo 0 [] float32);
     ("a", mkTensorInfo 1 [of_Z 2; of_Z 2] float32)]
  = [[]; ["2"; "2"]] /\
  let TAB := String (ascii_of_nat 9) "" in
  exists before : string,
    logKernelProfile (fun _ => "") "Add"
      (mkTensorInfo 3 [of_Z 2; of_Z 2] float32)
      [of_Z 1; of_Z 2; of_Z 3; of_Z 4] (of_Z 7)
      [("s", mkTensorInfo 0 [] float32);
       ("a", mkTensorInfo 1 [of_Z 2; of_Z 2] float32)]
      None
    = ([ConsoleLog
          (before +:+ TAB +:+ "%cs: 0D  a: 2D 2,2 " +:+ TAB +:+ "%cundefined")
          ["font-weight:bold"; "color:red"; "color:blue"; "color: orange";
           "color: green"; "color: steelblue"]],
       Normal tt).
Proof.
  split; [reflexivity |].
  exact (logKernelProfile_input_descriptions (fun _ => "") "Add"
           (mkTensorInfo 3 [of_Z 2; of_Z 2] float32)
           [of_Z 1; of_Z 2; of_Z 3; of_Z 4] (of_Z 7)
           [("s", mkTensorInfo 0 [] float32);
            ("a", mkTensorInfo 1 [of_Z 2; of_Z 2] float32)]
           None [[]; ["2"; "2"]] eq_refl).
Defined.

Example log_line_Add :
  logKernelProfile (fun _ => "") "Add"
    (mkTensorInfo 3 [of_Z 2; of_Z 2] float32)
    [of_Z 1; of_Z 2; of_Z 3; of_Z 4] (of_Z 7)
    [("s", mkTensorInfo 0 [] float32);
     ("a", mkTensorInfo 1 [of_Z 2; of_Z 2] float32)]
    (Some "")
  = ([ConsoleLog
        ("%cAdd                      " +:+ tab +:+ "%c7ms      " +:+ tab
         +:+ "%c2D 2,2           " +:+ tab +:+ "%c4" +:+ tab
         +:+ "%cs: 0D  a: 2D 2,2 " +:+ tab +:+ "%c")
        log_styles],
     Normal tt).
Proof. reflexivity. Qed.

(** ** The profiler: what runs before [profileKernel] returns *)

Section Synchronous.

Variable digits_of : number -> string.
Variable this : Profiler.
Variable kernelName : string.
Variable inputs : NamedTensorMap.
Variable f : ComputeFn.

Lemma invoke_wrapper_spec (n k : nat) (result : option KernelOutput) (w : World) :
  invoke_wrapper f n k result w
  = (Normal (match n with O => result | S m => Some (f (k + m)) end),
     set_trace (trace w ++ map EvCompute (seq k n)) w).
Proof.
  revert k result w. induction n as [| n IH]; intros k result w.
  - simpl. unfold ret, set_trace. rewrite app_nil_r. now destruct w.
  - simpl. unfold bind, holdResultWrapperFn, bind, emit, ret. simpl.
    rewrite IH. unfold set_trace. simpl. rewrite <- app_assoc. simpl.
    f_equal. destruct n as [| m];
      [now rewrite Nat.add_0_r | now rewrite Nat.add_succ_r].
Qed.

Lemma forEach_results_spec (rs : list TensorInfo) (i : nat) (w : World) :
  forEach_results kernelName inputs (map Some rs) i w
  = (Normal tt,
     set_reads (reads w ++ pending_reads (map (mkReaction kernelName inputs) rs))
       (set_trace (trace w ++ read_events i rs) w)).
Proof.
  revert i w. induction rs as [| r rs IH]; intros i w; simpl.
  - unfold ret, set_reads, set_trace. simpl. rewrite !app_nil_r. now destruct w.
  - unfold bind, dataReader_then, bind, emit. simpl. rewrite IH.
    unfold set_reads, set_trace. simpl. now rewrite <- !app_assoc.
Qed.

Lemma as_results_outputs (out : KernelOutput) :
  as_results (Some out) = map Some (outputs out).
Proof. now destruct out. Qed.

Lemma profileKernel_returns (k : nat) :
  sync_calls (backendTimer this) = S k ->
  profileKernel this kernelName inputs f start
  = (Normal (Some (f k)), world_at_return kernelName inputs f k).
Proof.
  intros Hk. unfold profileKernel, backendTimer_time, bind at 1 2.
  unfold emit at 1. rewrite Hk, invoke_wrapper_spec.
  cbv beta iota. rewrite as_results_outputs.
  unfold bind. rewrite forEach_results_spec. reflexivity.
Qed.

(** A timer that returns without having run the wrapper leaves [result]
    undefined, and the loop throws on [r.dataId]. *)
Lemma profileKernel_throws :
  sync_calls (backendTimer this) = 0 ->
  profileKernel this kernelName inputs f start
  = (Throw "TypeError: Cannot read properties of undefined",
     mkWorld [EvTime] [] Pending [] []).
Proof.
  intros Hk. unfold profileKernel, backendTimer_time, bind, emit.
  rewrite Hk. reflexivity.
Qed.

End Synchronous.

(** ** The profiler: what runs after [profileKernel] has returned *)

Lemma count_app {A : Type} (p : A -> bool) (l k : list A) :
  count p (l ++ k) = count p l + count p k.
Proof.
  unfold count. induction l as [| x l IH]; simpl; [reflexivity |].
  destruct (p x); simpl; now rewrite IH.
Qed.

Lemma count_cons {A : Type} (p : A -> bool) (x : A) (l : list A) :
  count p (x :: l) = (if p x then 1 else 0) + count p l.
Proof. unfold count. simpl. now destruct (p x). Qed.

Lemma count_none {A : Type} (p : A -> bool) (l : list A) :
  (forall x, In x l -> p x = false) -> count p l = 0.
Proof.
  unfold count. induction l as [| x l IH]; intros H; simpl; [reflexivity |].
  rewrite (H x) by (now left). apply IH. intros y Hy. apply H. now right.
Qed.


Lemma count_waiter_jobs (i : nat) (timing : BackendTimingInfo)
    (ws : list (nat * Reaction * BackendValues)) :
  count (job_for i) (map (waiter_job timing) ws) = count (waiter_for i) ws.
Proof.
  induction ws as [| x ws IH]; [reflexivity |].
  simpl map. rewrite !count_cons, IH. reflexivity.
Qed.

Lemma count_log_console (i : nat) (out : list Output) :
  count (is_log i) (map EvConsole out) = 0.
Proof. apply count_none. intros x Hx. apply in_map_iff in Hx as (o & <- & _). reflexivity. Qed.

Lemma count_log_unhandled (i : nat) (e : Error) {A : Type} (l : list A) :
  count (is_log i) (map (fun _ => EvUnhandled e) l) = 0.
Proof. apply count_none. intros x Hx. apply in_map_iff in Hx as (o & <- & _). reflexivity. Qed.

Section Asynchronous.

Variable digits_of : number -> string.
Variable this : Profiler.

Local Abbreviation check rc vals :=
  (checkComputationForErrors digits_of vals (dtype (rc_r rc)) (rc_kernelName rc)).
Local Abbreviation microtask' := (microtask digits_of this).
Local Abbreviation drain' := (drain digits_of this).
Local Abbreviation checkpoint' := (checkpoint digits_of this).
Local Abbreviation task' := (task digits_of this).
Local Abbreviation run' := (run digits_of this).
Local Abbreviation step := (step digits_of this).

(** *** [settle] and [microtask] make steps *)

(** Settling a promise is a step, or does nothing. *)
Lemma settle_step (s : Settle) (w : World) :
  settle s w = w \/ step w (settle s w).
Proof.
  destruct s as [i o | o]; unfold settle.
  - destruct (reads w !! i) as [[r [| o']] |] eqn:E; auto.
    right. destruct o as [vals | e]; unfold set_queue, set_reads, set_trace; simpl.
    + now apply step_read_fulfilled.
    + rewrite <- app_assoc. now apply step_read_rejected.
  - destruct (timer w) as [| o'] eqn:E; auto.
    right. destruct o as [timing | e]; unfold set_waiting, set_queue, set_timer, set_trace; simpl.
    + now apply step_timer_fulfilled.
    + rewrite <- app_assoc. now apply step_timer_rejected.
Qed.

(** A microtask is a step, unless the queue is empty. *)
Lemma microtask_step (w : World) :
  (queue w = [] /\ microtask' w = w) \/ step w (microtask' w).
Proof.
  unfold microtask. destruct (queue w) as [| j q] eqn:Eq; [now left |].
  right. destruct j as [i r vals | i r vals timing];
    unfold run_job, job_body, bind, lift, emit, timer_then, set_queue,
      set_waiting, set_trace; simpl.
  - destruct (checkComputationForErrors_normal digits_of vals (dtype (rc_r r))
                (rc_kernelName r)) as [b Hb].
    destruct (check r vals) as [out c] eqn:Ec. simpl in Hb. subst c. simpl.
    destruct (timer w) as [| [timing | e]] eqn:Et; simpl; rewrite <- !app_assoc.
    + rewrite <- Et. now apply (step_job_read_waits digits_of this w i r vals q out b).
    + rewrite <- Et.
      now apply (step_job_read_queues digits_of this w i r vals q out b timing).
    + rewrite <- Et. simpl.
      now apply (step_job_read_drops digits_of this w i r vals q out b e).
  - destruct (log_method (logger this) (log_call r vals timing))
      as [out c] eqn:El. simpl.
    pose proof (step_job_log digits_of this w i r vals timing q out c Eq El) as Hs.
    destruct c as [[] | e]; simpl in *; rewrite <- ?app_assoc; simpl.
    + rewrite app_nil_r in Hs. exact Hs.
    + exact Hs.
Qed.

(** *** What a step keeps *)

Lemma insert_pending_other
    (rs : list (Reaction * PromiseState BackendValues))
    (j : nat) (r' : Reaction) (x : Reaction * PromiseState BackendValues)
    (i : nat) (r : Reaction) (o : Outcome BackendValues) :
  rs !! j = Some (r', Pending) ->
  rs !! i = Some (r, Settled o) ->
  <[j := x]> rs !! i = Some (r, Settled o).
Proof.
  intros Hj Hi. rewrite list_lookup_insert_ne; [exact Hi |].
  intros ->. congruence.
Qed.

(** A step only adds events, and none of the synchronous kinds. *)
Lemma step_trace (w w' : World) :
  step w w' ->
  exists evs, trace w' = trace w ++ evs /\
              forall ev, In ev evs -> is_call ev = false.
Proof.
  intros Hs. destruct Hs; simpl; eexists; (split; [reflexivity |]);
    intros ev Hev; simpl in Hev;
    repeat (rewrite in_app_iff in Hev; simpl in Hev);
    repeat match goal with
           | H : _ \/ _ |- _ => destruct H
           | H : In _ (map _ _) |- _ => apply in_map_iff in H as (? & <- & _)
           | H : False |- _ => destruct H
           | H : In _ match ?c with _ => _ end |- _ => destruct c; simpl in H
           end; subst; reflexivity.
Qed.

Lemma step_trace_In (w w' : World) (ev : Event) :
  step w w' -> In ev (trace w) -> In ev (trace w').
Proof.
  intros Hs Hin. destruct (step_trace w w' Hs) as (evs & -> & _).
  apply in_or_app. now left.
Qed.

Lemma step_checked (w w' : World) (i : nat) (vals : BackendValues) :
  step w w' -> checked (trace w) i vals -> checked (trace w') i vals.
Proof.
  intros Hs [b Hb]. destruct (step_trace w w' Hs) as (evs & -> & _).
  exists b. now apply sublist_inserts_r.
Qed.

(** A settled promise stays as it is. *)
Lemma step_reads_settled (w w' : World) (i : nat) (r : Reaction)
    (o : Outcome BackendValues) :
  step w w' ->
  reads w !! i = Some (r, Settled o) -> reads w' !! i = Some (r, Settled o).
Proof.
  intros Hs Hi. destruct Hs; simpl; try exact Hi;
    eapply insert_pending_other; eassumption.
Qed.

Lemma step_timer_settled (w w' : World) (o : Outcome BackendTimingInfo) :
  step w w' -> timer w = Settled o -> timer w' = Settled o.
Proof. intros Hs Ht. destruct Hs; simpl; congruence. Qed.

(** The descriptor captured for each read never changes. *)
Lemma step_reads_descriptor (w w' : World) (i : nat) :
  step w w' -> fst <$> reads w' !! i = fst <$> reads w !! i.
Proof.
  intros Hs.
  assert (forall j r x, reads w !! j = Some (r, Pending) ->
            fst <$> <[j := (r, x)]> (reads w) !! i = fst <$> reads w !! i) as Hins.
  { intros j r x Hj. destruct (decide (j = i)) as [-> | Hne].
    - rewrite list_lookup_insert_eq by (eapply lookup_lt_Some; eassumption).
      now rewrite Hj.
    - now rewrite list_lookup_insert_ne. }
  destruct Hs; simpl; auto.
Qed.

(** Once the read is fulfilled its validation has a place in the trace. *)
Lemma checked_now (tr : list Event) (i : nat) (vals : BackendValues)
    (evs : list Event) (b : bool) (rest : list Event) :
  In (EvReadSettled i (Fulfilled vals)) tr ->
  checked (tr ++ evs ++ EvCheck i b :: rest) i vals.
Proof.
  intros Hin. apply in_split in Hin as (t1 & t2 & ->). exists b.
  rewrite <- app_assoc. simpl.
  apply sublist_inserts_l. apply sublist_skip.
  apply sublist_inserts_l, sublist_inserts_l.
  apply sublist_skip, sublist_nil_l.
Qed.

(** *** The invariant: where it starts *)

(** Work exists only for outputs whose read was fulfilled. *)
Lemma tokens_unsettled (w : World) (i : nat) :
  Inv w -> (forall r vals, ~ settled_read w i r vals) -> tokens i w = 0.
Proof.
  intros HI Hno. unfold tokens.
  rewrite (count_none (job_for i) (queue w)),
          (count_none (waiter_for i) (waiting w)),
          (count_none (is_log i) (trace w)); [reflexivity | | |].
  - intros ev Hin. destruct ev; try reflexivity. simpl.
    destruct (Nat.eqb_spec i0 i) as [-> | Hne]; [| reflexivity].
    apply in_split in Hin as (pre & post & Htr).
    destruct (inv_log w HI _ _ _ _ Htr) as (r & vals & t & Hr & _).
    now destruct (Hno r vals).
  - intros [[k r] vals] Hin. unfold waiter_for. simpl.
    destruct (Nat.eqb_spec k i) as [-> | Hne]; [| reflexivity].
    destruct (inv_waiting w HI _ _ _ Hin) as (_ & Hr & _).
    now destruct (Hno r vals).
  - intros j Hin. unfold job_for.
    destruct (Nat.eqb_spec (job_index j) i) as [<- | Hne]; [| reflexivity].
    destruct j as [k r vals | k r vals t]; simpl in *.
    + destruct (inv_job_read w HI _ _ _ Hin) as (Hr & _).
      now destruct (Hno r vals).
    + destruct (inv_job_log w HI _ _ _ _ Hin) as (_ & Hr & _).
      now destruct (Hno r vals).
Qed.

(** The invariant holds when [profileKernel] returns: nothing is queued,
    nothing waits, nothing was logged and every promise is pending. *)
Lemma Inv_initial (tr : list Event) (rs : list Reaction) :
  (forall ev, In ev tr -> is_call ev = true) ->
  Inv (mkWorld tr (pending_reads rs) Pending [] []).
Proof.
  intros Htr.
  assert (forall i r vals,
            ~ settled_read (mkWorld tr (pending_reads rs) Pending [] []) i r vals)
    as Hno.
  { intros i r vals H. unfold settled_read, pending_reads in H. simpl in H.
    rewrite list_lookup_fmap in H.
    destruct (rs !! i); simpl in H; congruence. }
  assert (forall i, count (is_log i) tr = 0) as Hlog.
  { intros i. apply count_none. intros ev Hev. apply Htr in Hev.
    now destruct ev. }
  constructor; simpl; try contradiction; try discriminate.
  - intros pre post i c ->.
    specialize (Htr (EvLog i c)). simpl in Htr.
    assert (false = true) by (apply Htr, in_or_app; right; now left).
    discriminate.
  - intros i. unfold tokens. simpl. rewrite Hlog. unfold count. simpl. lia.
  - intros i r vals H. now destruct (Hno i r vals).
Qed.

(** *** The invariant is kept by every step *)

Ltac step_cases Hs :=
  destruct Hs as
    [ w0 j rj valsj Hj
    | w0 j rj ej Hj
    | w0 tm Htm
    | w0 etm Htm
    | w0 j rj valsj q out b Hq Hc Htm
    | w0 j rj valsj q out b tm Hq Hc Htm
    | w0 j rj valsj q out b etm Hq Hc Htm
    | w0 j rj valsj tm q out c Hq Hl ].

Lemma step_inv_job_read (w w' : World) :
  step w w' -> Inv w ->
  forall i r vals,
    In (JobRead i r vals) (queue w') ->
    settled_read w' i r vals /\ In (EvReadSettled i (Fulfilled vals)) (trace w').
Proof.
  intros Hs HI i r vals Hin.
  assert (In (JobRead i r vals) (queue w) ->
          settled_read w' i r vals /\
          In (EvReadSettled i (Fulfilled vals)) (trace w')) as Hold.
  { intros H. destruct (inv_job_read w HI _ _ _ H) as [H1 H2].
    split; [eapply step_reads_settled | eapply step_trace_In]; eassumption. }
  step_cases Hs; simpl in Hin; try (now apply Hold).
  - apply in_app_or in Hin as [Hin | [Heq | []]]; [now apply Hold |].
    inversion Heq; subst. split.
    + unfold settled_read. simpl. apply list_lookup_insert_eq.
      eapply lookup_lt_Some; eassumption.
    + simpl. apply in_or_app. right. now left.
  - apply in_app_or in Hin as [Hin | Hin]; [now apply Hold |].
    apply in_map_iff in Hin as (x & Hx & _). discriminate.
  - apply Hold. rewrite Hq. now right.
  - apply in_app_or in Hin as [Hin | [Heq | []]]; [| discriminate].
    apply Hold. rewrite Hq. now right.
  - apply Hold. rewrite Hq. now right.
  - apply Hold. rewrite Hq. now right.
Qed.

Lemma step_inv_waiting (w w' : World) :
  step w w' -> Inv w ->
  forall i r vals,
    In (i, r, vals) (waiting w') ->
    timer w' = Pending /\ settled_read w' i r vals /\ checked (trace w') i vals.
Proof.
  intros Hs HI i r vals Hin. pose proof Hs as Hs'.
  assert (In (i, r, vals) (waiting w) ->
          timer w = Pending /\ settled_read w' i r vals /\
          checked (trace w') i vals) as Hold.
  { intros H. destruct (inv_waiting w HI _ _ _ H) as (H1 & H2 & H3).
    split; [exact H1 |].
    split; [eapply step_reads_settled | eapply step_checked]; eassumption. }
  step_cases Hs; simpl in Hin; try contradiction; try (now apply Hold).
  apply in_app_or in Hin as [Hin | [Heq | []]]; [now apply Hold |].
  inversion Heq; subst.
  destruct (inv_job_read w0 HI i r vals) as [H1 H2]; [rewrite Hq; now left |].
  split; [exact Htm |]. split; [exact H1 |].
  simpl. now apply checked_now.
Qed.

Lemma step_inv_job_log (w w' : World) :
  step w w' -> Inv w ->
  forall i r vals timing,
    In (JobLog i r vals timing) (queue w') ->
    timer w' = Settled (Fulfilled timing) /\ settled_read w' i r vals /\
    checked (trace w') i vals.
Proof.
  intros Hs HI i r vals timing Hin. pose proof Hs as Hs'.
  assert (In (JobLog i r vals timing) (queue w) ->
          timer w = Settled (Fulfilled timing) /\ settled_read w' i r vals /\
          checked (trace w') i vals) as Hold.
  { intros H. destruct (inv_job_log w HI _ _ _ _ H) as (H1 & H2 & H3).
    split; [exact H1 |].
    split; [eapply step_reads_settled | eapply step_checked]; eassumption. }
  step_cases Hs; simpl in Hin; try (now apply Hold).
  - apply in_app_or in Hin as [Hin | [Heq | []]]; [now apply Hold | discriminate].
  - apply in_app_or in Hin as [Hin | Hin].
    + apply Hold in Hin as (H1 & _). simpl in H1. congruence.
    + apply in_map_iff in Hin as ([[i' r'] vals'] & Heq & Hin).
      inversion Heq; subst.
      destruct (inv_waiting w0 HI _ _ _ Hin) as (_ & H2 & H3).
      split; [reflexivity |]. split; [exact H2 |].
      eapply step_checked; eassumption.
  - apply Hold in Hin as (H1 & _). simpl in H1. congruence.
  - apply Hold. rewrite Hq. now right.
  - apply in_app_or in Hin as [Hin | [Heq | []]].
    + apply Hold. rewrite Hq. now right.
    + inversion Heq; subst.
      destruct (inv_job_read w0 HI i r vals) as [H1 H2]; [rewrite Hq; now left |].
      split; [exact Htm |]. split; [exact H1 |].
      simpl. now apply checked_now.
  - apply Hold. rewrite Hq. now right.
  - apply Hold. rewrite Hq. now right.
Qed.

Lemma step_inv_timer (w w' : World) :
  step w w' -> Inv w ->
  forall o, timer w' = Settled o -> In (EvTimerSettled o) (trace w').
Proof.
  intros Hs HI o Ht. pose proof Hs as Hs'.
  step_cases Hs; simpl in Ht;
    try (eapply step_trace_In; [exact Hs' | now apply (inv_timer _ HI)]).
  - inversion Ht; subst. simpl. apply in_or_app. right. now left.
  - inversion Ht; subst. simpl. apply in_or_app. right. now left.
Qed.

(** Where an element of a grown list sits: in the old part or in the new. *)
Lemma app_eq_split {A : Type} (tr evs pre post : list A) (x : A) :
  tr ++ evs = pre ++ x :: post ->
  (exists post', tr = pre ++ x :: post') \/
  (exists pre', pre = tr ++ pre' /\ evs = pre' ++ x :: post).
Proof.
  revert pre. induction tr as [| y tr IH]; intros pre H; simpl in H.
  - right. exists pre. auto.
  - destruct pre as [| z pre]; simpl in H.
    + inversion H; subst. left. now exists tr.
    + inversion H; subst. destruct (IH pre H2) as [[post' ->] | (pre' & -> & ->)].
      * left. now exists post'.
      * right. now exists pre'.
Qed.

(** Only the logging reaction adds a logger call, and it adds it first. *)
Lemma step_new_log (w w' : World) (evs pre' post : list Event)
    (i : nat) (call : LogCall) :
  step w w' -> trace w' = trace w ++ evs -> evs = pre' ++ EvLog i call :: post ->
  pre' = [] /\
  exists r vals timing q,
    queue w = JobLog i r vals timing :: q /\ call = log_call r vals timing.
Proof.
  intros Hs Htr Hev.
  assert (forall l p : list Event,
            (forall ev, In ev l -> forall k d, ev <> EvLog k d) ->
            l <> p ++ EvLog i call :: post) as Hnolog.
  { intros l p Hl ->. apply (Hl (EvLog i call)) with (k := i) (d := call);
      [apply in_or_app; right; now left | reflexivity]. }
  assert (forall (out : list Output) (l : list Event),
            (forall ev, In ev l -> forall k d, ev <> EvLog k d) ->
            forall ev, In ev (map EvConsole out ++ l) ->
                       forall k d, ev <> EvLog k d) as Hcons.
  { intros out l Hl ev Hin k d. apply in_app_or in Hin as [Hin | Hin].
    - apply in_map_iff in Hin as (o & <- & _). discriminate.
    - now apply Hl. }
  step_cases Hs; simpl in Htr; apply app_inv_head in Htr; subst evs.
  - exfalso. revert Hev. apply Hnolog. intros ev [<- | []]; discriminate.
  - exfalso. revert Hev. apply Hnolog. intros ev [<- | [<- | []]]; discriminate.
  - exfalso. revert Hev. apply Hnolog. intros ev [<- | []]; discriminate.
  - exfalso. revert Hev. apply Hnolog. intros ev [<- | Hin]; [discriminate |].
    apply in_map_iff in Hin as (o & <- & _). discriminate.
  - exfalso. revert Hev. apply Hnolog, Hcons. intros ev [<- | []]; discriminate.
  - exfalso. revert Hev. apply Hnolog, Hcons. intros ev [<- | []]; discriminate.
  - exfalso. revert Hev. apply Hnolog, Hcons.
    intros ev [<- | [<- | []]]; discriminate.
  - destruct pre' as [| ev pre']; simpl in Hev.
    + inversion Hev; subst. split; [reflexivity |]. now exists rj, valsj, tm, q.
    + exfalso. inversion Hev as [[Hhd Htl]]. revert Htl.
      apply Hnolog, Hcons. intros ev'.
      destruct c as [[] | e]; simpl; [contradiction |].
      intros [<- | []]; discriminate.
Qed.

Lemma step_inv_log (w w' : World) :
  step w w' -> Inv w ->
  forall pre post i c,
    trace w' = pre ++ EvLog i c :: post ->
    exists r vals timing,
      settled_read w' i r vals /\ timer w' = Settled (Fulfilled timing) /\
      c = log_call r vals timing /\
      checked pre i vals /\ In (EvTimerSettled (Fulfilled timing)) pre.
Proof.
  intros Hs HI pre post i c Htr.
  destruct (step_trace w w' Hs) as (evs & Hevs & _).
  rewrite Hevs in Htr.
  apply app_eq_split in Htr as [[post' Hold] | (pre' & -> & Hnew)].
  - destruct (inv_log w HI _ _ _ _ Hold) as (r & vals & t & H1 & H2 & H3 & H4 & H5).
    exists r, vals, t. repeat split; try assumption.
    + eapply step_reads_settled; eassumption.
    + eapply step_timer_settled; eassumption.
  - destruct (step_new_log w w' evs pre' post i c Hs Hevs Hnew)
      as (-> & r & vals & t & q & Hq & ->).
    destruct (inv_job_log w HI i r vals t) as (H1 & H2 & H3);
      [rewrite Hq; now left |].
    exists r, vals, t. rewrite app_nil_r. repeat split.
    + eapply step_reads_settled; eassumption.
    + eapply step_timer_settled; eassumption.
    + exact H3.
    + now apply (inv_timer w HI).
Qed.

Lemma count_nil {A : Type} (p : A -> bool) : count p [] = 0.
Proof. reflexivity. Qed.

Ltac count_tokens :=
  unfold tokens in *; simpl in *;
  repeat rewrite ?count_app, ?count_cons, ?count_nil, ?count_waiter_jobs,
    ?count_log_console, ?count_log_unhandled in *;
  unfold job_for, waiter_for in *; simpl in *.

Lemma step_inv_tokens (w w' : World) :
  step w w' -> Inv w ->
  forall i,
    tokens i w' <= 1 /\
    (forall r vals,
       settled_read w' i r vals ->
       (forall e, timer w' <> Settled (Rejected e)) ->
       tokens i w' = 1).
Proof.
  intros Hs HI i.
  pose proof (inv_tokens_le w HI i) as Hle.
  pose proof (inv_tokens_one w HI i) as Hone.
  pose proof (tokens_unsettled w i HI) as Hzero.
  unfold settled_read in *.
  step_cases Hs.
  - (* the read of output j is fulfilled *)
    destruct (decide (j = i)) as [-> | Hne].
    + assert (tokens i w0 = 0) as Hz
        by (apply Hzero; intros r vals H; congruence).
      count_tokens. rewrite Nat.eqb_refl. split; [lia | intros; lia].
    + simpl. rewrite list_lookup_insert_ne by exact Hne.
      count_tokens. destruct (Nat.eqb_spec j i); [contradiction |].
      split; [lia |]. intros r vals Hr Ht.
      specialize (Hone r vals Hr Ht). lia.
  - (* the read of output j is rejected *)
    destruct (decide (j = i)) as [-> | Hne].
    + simpl. rewrite list_lookup_insert_eq
        by (eapply lookup_lt_Some; eassumption).
      count_tokens. split; [lia | intros; discriminate].
    + simpl. rewrite list_lookup_insert_ne by exact Hne.
      count_tokens. split; [lia |]. intros r vals Hr Ht.
      specialize (Hone r vals Hr Ht). lia.
  - (* the timer is fulfilled *)
    count_tokens. split; [lia |]. intros r vals Hr _.
    assert (forall e, timer w0 <> Settled (Rejected e)) as Ht
      by (intros e; congruence).
    specialize (Hone r vals Hr Ht). lia.
  - (* the timer is rejected *)
    count_tokens. split; [lia |]. intros r vals _ Ht.
    now destruct (Ht etm).
  - (* the reaction of read j runs and waits for the timer *)
    count_tokens. rewrite Hq in *. count_tokens.
    split; [lia |]. intros r vals Hr Ht. specialize (Hone r vals Hr Ht). lia.
  - (* the reaction of read j runs and queues the logging reaction *)
    count_tokens. rewrite Hq in *. count_tokens.
    split; [lia |]. intros r vals Hr Ht. specialize (Hone r vals Hr Ht). lia.
  - (* the reaction of read j runs; the timer was rejected *)
    count_tokens. rewrite Hq in *. count_tokens.
    split; [lia |]. intros r vals _ Ht. rewrite Htm in Ht.
    now destruct (Ht etm).
  - (* the logging reaction of output j runs *)
    count_tokens. rewrite Hq in *. count_tokens.
    assert (count (is_log i)
              match c with
              | Normal _ => []
              | Throw e => [EvUnhandled e]
              end = 0) as Hc by (now destruct c).
    rewrite Hc in *.
    split; [lia |]. intros r vals Hr Ht. specialize (Hone r vals Hr Ht). lia.
Qed.

Lemma step_Inv (w w' : World) : step w w' -> Inv w -> Inv w'.
Proof.
  intros Hs HI. constructor.
  - now apply step_inv_job_read with (w := w).
  - now apply step_inv_waiting with (w := w).
  - now apply step_inv_job_log with (w := w).
  - now apply step_inv_timer with (w := w).
  - now apply step_inv_log with (w := w).
  - intros i. now apply (step_inv_tokens w w' Hs HI i).
  - intros i. now apply (step_inv_tokens w w' Hs HI i).
Qed.

(** *** From steps to tasks and schedules *)

Section Preservation.

Variable P : World -> Prop.
Hypothesis P_step : forall w w', step w w' -> P w -> P w'.

Lemma settle_preserves (s : Settle) (w : World) : P w -> P (settle s w).
Proof.
  intros H. destruct (settle_step s w) as [-> | Hs]; [exact H |].
  eapply P_step; eassumption.
Qed.

Lemma microtask_preserves (w : World) : P w -> P (microtask' w).
Proof.
  intros H. destruct (microtask_step w) as [[_ ->] | Hs]; [exact H |].
  eapply P_step; eassumption.
Qed.

Lemma drain_preserves (fuel : nat) (w : World) : P w -> P (drain' fuel w).
Proof.
  revert w. induction fuel as [| n IH]; intros w H; simpl; [exact H |].
  apply IH, microtask_preserves, H.
Qed.

Lemma task_preserves (ss : list Settle) (w : World) : P w -> P (task' ss w).
Proof.
  intros H. unfold task, checkpoint. apply drain_preserves.
  revert w H. induction ss as [| s ss IH]; intros w H; simpl; [exact H |].
  apply IH, settle_preserves, H.
Qed.

Lemma run_preserves (sched : list (list Settle)) (w : World) :
  P w -> P (run' sched w).
Proof.
  revert w. induction sched as [| ss sched IH]; intros w H; simpl; [exact H |].
  apply IH, task_preserves, H.
Qed.

End Preservation.

(** *** The microtask checkpoint empties the queue *)

Lemma queue_weight_app (q q' : list Job) :
  queue_weight (q ++ q') = queue_weight q + queue_weight q'.
Proof. induction q as [| j q IH]; simpl; [reflexivity | rewrite IH; lia]. Qed.

Lemma queue_weight_bound (q : list Job) : queue_weight q <= 2 * List.length q.
Proof.
  induction q as [| j q IH]; [simpl; lia |].
  change (queue_weight (j :: q)) with (job_weight j + queue_weight q).
  destruct j; simpl in *; lia.
Qed.

Lemma queue_weight_zero (q : list Job) : queue_weight q = 0 -> q = [].
Proof.
  destruct q as [| j q]; [reflexivity |].
  change (queue_weight (j :: q)) with (job_weight j + queue_weight q).
  destruct j; simpl; lia.
Qed.

(** A job leaves the queue when it runs, and only the reaction of a read
    adds one, a logging reaction. *)
Lemma microtask_queue (w : World) (j : Job) (q : list Job) :
  queue w = j :: q ->
  queue_weight (queue (microtask' w)) < queue_weight (queue w).
Proof.
  intros Hq. rewrite Hq.
  change (queue_weight (j :: q)) with (job_weight j + queue_weight q).
  unfold microtask. rewrite Hq.
  destruct j as [i r vals | i r vals timing];
    unfold run_job, job_body, bind, lift, emit, timer_then, set_queue,
      set_waiting, set_trace; simpl.
  - destruct (snd (check r vals)); simpl; [| lia].
    destruct (timer w) as [| [timing | e]]; simpl;
      rewrite ?queue_weight_app; simpl; lia.
  - destruct (snd (log_method (logger this) (log_call r vals timing)));
      simpl; lia.
Qed.

Lemma drain_empties (fuel : nat) (w : World) :
  queue_weight (queue w) <= fuel -> queue (drain' fuel w) = [].
Proof.
  revert w. induction fuel as [| n IH]; intros w Hw; simpl.
  - apply queue_weight_zero. lia.
  - apply IH. destruct (queue w) as [| j q] eqn:Hq.
    + unfold microtask. rewrite Hq. rewrite Hq. simpl. lia.
    + pose proof (microtask_queue w j q Hq) as Hlt. rewrite Hq in Hlt. lia.
Qed.

Lemma checkpoint_empties (w : World) : queue (checkpoint' w) = [].
Proof. apply drain_empties, queue_weight_bound. Qed.

Lemma run_empties (sched : list (list Settle)) (w : World) :
  queue w = [] -> queue (run' sched w) = [].
Proof.
  revert w. induction sched as [| ss sched IH]; intros w Hq; simpl; [exact Hq |].
  apply IH. apply checkpoint_empties.
Qed.

(** *** What the invariant gives at the end of a task *)

(** The calls made before [profileKernel] returned are never added to. *)
Lemma step_calls (w w' : World) :
  step w w' -> List.filter is_call (trace w') = List.filter is_call (trace w).
Proof.
  intros Hs. destruct (step_trace w w' Hs) as (evs & -> & Hevs).
  rewrite List.filter_app.
  assert (List.filter is_call evs = []) as ->; [| apply app_nil_r].
  clear -Hevs. induction evs as [| ev evs IH]; [reflexivity |].
  simpl. rewrite (Hevs ev) by (now left). apply IH.
  intros ev' H. apply Hevs. now right.
Qed.

(** No logger call for an output whose read is not fulfilled, and none
    while the timer is not fulfilled. *)
Lemma not_logged (w : World) (i : nat) :
  Inv w ->
  (forall r vals, ~ settled_read w i r vals) \/
  (forall timing, timer w <> Settled (Fulfilled timing)) ->
  count (is_log i) (trace w) = 0.
Proof.
  intros HI Hno. apply count_none. intros ev Hin.
  destruct ev; try reflexivity. simpl.
  destruct (Nat.eqb_spec i0 i) as [-> | Hne]; [| reflexivity].
  apply in_split in Hin as (pre & post & Htr).
  destruct (inv_log w HI _ _ _ _ Htr) as (r & vals & t & Hr & Ht & _).
  destruct Hno as [Hno | Hno]; [now destruct (Hno r vals) | now destruct (Hno t)].
Qed.



(** *** One call of [profileKernel] and the schedule after it *)

Section Call.

Variable kernelName : string.
Variable inputs : NamedTensorMap.
Variable f : ComputeFn.

Local Abbreviation profile_and_run' :=
  (profile_and_run digits_of this kernelName inputs f).
Local Abbreviation reaction := (mkReaction kernelName inputs).
Local Abbreviation rejections_ok := rejections_unhandled.
Local Abbreviation throws_ok := (throws_unhandled this).

Lemma read_events_calls (i : nat) (rs : list TensorInfo) (ev : Event) :
  In ev (read_events i rs) -> is_read ev = true.
Proof.
  revert i. induction rs as [| r rs IH]; intros i; simpl; [contradiction |].
  intros [<- | H]; [reflexivity | now apply (IH (S i))].
Qed.




Lemma world_at_return_calls (k : nat) (ev : Event) :
  In ev (trace (world_at_return kernelName inputs f k)) -> is_call ev = true.
Proof.
  unfold world_at_return. cbn [trace]. intros [<- | H]; [reflexivity |].
  apply in_app_or in H as [H | H].
  - apply in_map_iff in H as (n & <- & _). reflexivity.
  - apply read_events_calls in H. now destruct ev.
Qed.

(** Whatever the timer did, the invariant holds when the call ends. *)
Lemma Inv_after_call : Inv (snd (profileKernel this kernelName inputs f start)).
Proof.
  destruct (sync_calls (backendTimer this)) as [| k] eqn:Hn.
  - rewrite profileKernel_throws by exact Hn.
    apply (Inv_initial [EvTime] []). intros ev [<- | []]. reflexivity.
  - rewrite (profileKernel_returns this kernelName inputs f k Hn).
    apply Inv_initial, world_at_return_calls.
Qed.

Lemma queue_after_call : queue (snd (profileKernel this kernelName inputs f start)) = [].
Proof.
  destruct (sync_calls (backendTimer this)) as [| k] eqn:Hn.
  - now rewrite profileKernel_throws.
  - now rewrite (profileKernel_returns this kernelName inputs f k Hn).
Qed.

Lemma profile_and_run_snd (sched : list (list Settle)) :
  snd (profile_and_run' sched) = run' sched (snd (profileKernel this kernelName inputs f start)).
Proof. reflexivity. Qed.

Lemma profile_and_run_fst (sched : list (list Settle)) :
  fst (profile_and_run' sched) = fst (profileKernel this kernelName inputs f start).
Proof. reflexivity. Qed.

Lemma Inv_at_end (sched : list (list Settle)) :
  Inv (snd (profile_and_run' sched)).
Proof. rewrite profile_and_run_snd. apply run_preserves; [exact step_Inv | exact Inv_after_call]. Qed.

Lemma queue_at_end (sched : list (list Settle)) :
  queue (snd (profile_and_run' sched)) = [].
Proof. rewrite profile_and_run_snd. apply run_empties, queue_after_call. Qed.

Lemma calls_at_end (sched : list (list Settle)) :
  List.filter is_call (trace (snd (profile_and_run' sched)))
  = List.filter is_call (trace (snd (profileKernel this kernelName inputs f start))).
Proof.
  rewrite profile_and_run_snd.
  apply (run_preserves
           (fun w => List.filter is_call (trace w)
                     = List.filter is_call (trace (snd (profileKernel this kernelName inputs f start))))).
  - intros w w' Hs H. now rewrite (step_calls w w' Hs).
  - reflexivity.
Qed.

Lemma descriptors_at_end (sched : list (list Settle)) (i : nat) :
  fst <$> reads (snd (profile_and_run' sched)) !! i
  = fst <$> reads (snd (profileKernel this kernelName inputs f start)) !! i.
Proof.
  rewrite profile_and_run_snd.
  apply (run_preserves
           (fun w => fst <$> reads w !! i
                     = fst <$> reads (snd (profileKernel this kernelName inputs f start)) !! i)).
  - intros w w' Hs H. now rewrite (step_reads_descriptor w w' i Hs).
  - reflexivity.
Qed.




(** *** Failures of the reactions end as unhandled rejections *)

Lemma not_in_console (ev : Event) (out : list Output) :
  (forall o, ev <> EvConsole o) -> ~ In ev (map EvConsole out).
Proof. intros Hne Hin. apply in_map_iff in Hin as (o & <- & _). now apply (Hne o). Qed.

Lemma step_rejections_unhandled (w w' : World) :
  step w w' -> rejections_unhandled w -> rejections_unhandled w'.
Proof.
  intros Hs Hold i e Hin. pose proof Hs as Hs'.
  assert (In (EvReadSettled i (Rejected e)) (trace w) ->
          In (EvUnhandled e) (trace w')) as Hkeep.
  { intros H. eapply step_trace_In; [exact Hs' |]. now apply (Hold i e). }
  step_cases Hs; simpl in Hin |- *;
    apply in_app_or in Hin as [Hin | Hin]; try (now apply Hkeep);
    simpl in Hin.
  - destruct Hin as [Hin | []]. discriminate.
  - destruct Hin as [Hin | [Hin | []]]; [| discriminate].
    inversion Hin; subst. apply in_or_app. right. right. now left.
  - destruct Hin as [Hin | []]. discriminate.
  - destruct Hin as [Hin | Hin]; [discriminate |].
    apply in_map_iff in Hin as (x & Hx & _). discriminate.
  - apply in_app_or in Hin as [Hin | [Hin | []]]; [| discriminate].
    exfalso. revert Hin. apply not_in_console. discriminate.
  - apply in_app_or in Hin as [Hin | [Hin | []]]; [| discriminate].
    exfalso. revert Hin. apply not_in_console. discriminate.
  - apply in_app_or in Hin as [Hin | [Hin | [Hin | []]]]; try discriminate.
    exfalso. revert Hin. apply not_in_console. discriminate.
  - destruct Hin as [Hin | Hin]; [discriminate |].
    apply in_app_or in Hin as [Hin | Hin].
    + exfalso. revert Hin. apply not_in_console. discriminate.
    + destruct c as [[] | e']; simpl in Hin; [contradiction |].
      destruct Hin as [Hin | []]. discriminate.
Qed.

Lemma step_throws_unhandled (w w' : World) :
  step w w' -> throws_ok w -> throws_ok w'.
Proof.
  intros Hs Hold i call out' e Hin Hthrow. pose proof Hs as Hs'.
  destruct (step_trace w w' Hs) as (evs & Hevs & _).
  rewrite Hevs in Hin. apply in_app_or in Hin as [Hin | Hin].
  - eapply step_trace_In; [exact Hs' |]. now apply (Hold i call out' e).
  - apply in_split in Hin as (pre' & post & Hsplit).
    destruct (step_new_log w w' evs pre' post i call Hs Hevs Hsplit)
      as (-> & _). simpl in Hsplit. subst evs. clear Hs'.
    step_cases Hs; simpl in Hevs; apply app_inv_head in Hevs;
      try discriminate; try (destruct out; discriminate).
    injection Hevs as Hi Hcall Hrest. subst i.
    rewrite <- Hcall, Hl in Hthrow. inversion Hthrow; subst.
    simpl. apply in_or_app. right. right. apply in_or_app. right. now left.
Qed.

(** *** The claims about [profileKernel] *)



(** The reaction of read [i] is the closure of round [i]: it captured the
    kernel name and the inputs of the call and the [i]-th descriptor. *)
Lemma reaction_at_end (sched : list (list Settle)) (i : nat) (rc : Reaction)
    (st : PromiseState BackendValues) :
  reads (snd (profile_and_run' sched)) !! i = Some (rc, st) ->
  exists k r,
    sync_calls (backendTimer this) = S k /\
    outputs (f k) !! i = Some r /\ rc = reaction r.
Proof.
  intros Hr. pose proof (descriptors_at_end sched i) as Hd.
  rewrite Hr in Hd. simpl in Hd.
  destruct (sync_calls (backendTimer this)) as [| k] eqn:Hn.
  - rewrite profileKernel_throws in Hd by exact Hn. discriminate.
  - rewrite (profileKernel_returns this kernelName inputs f k Hn) in Hd.
    unfold world_at_return, pending_reads in Hd. cbn [snd reads] in Hd.
    rewrite !list_lookup_fmap in Hd.
    destruct (outputs (f k) !! i) as [r |] eqn:Ho; simpl in Hd; [| discriminate].
    exists k, r. split; [reflexivity |]. split; [exact Ho | congruence].
Qed.


(** C6. Wherever a logger call for output [i] stands in the trace of a run,
    it stands after the fulfilment of the read of output [i], after the
    validation of the values of that read, which itself comes after the
    fulfilment, and after the fulfilment of the timer. *)
Theorem logger_call_after_read_and_timer (sched : list (list Settle))
    (pre post : list Event) (i : nat) (c : LogCall) :
  trace (snd (profile_and_run' sched)) = pre ++ EvLog i c :: post ->
  exists r vals timing found,
    c = log_call (reaction r) vals timing /\
    [EvReadSettled i (Fulfilled vals); EvCheck i found] `sublist_of` pre /\
    In (EvTimerSettled (Fulfilled timing)) pre.
Proof.
  intros Htr.
  destruct (inv_log _ (Inv_at_end sched) pre post i c Htr)
    as (rc & vals & timing & Hr & _ & Hc & [found Hsub] & Ht).
  destruct (reaction_at_end sched i rc _ Hr) as (k & r & _ & _ & ->).
  now exists r, vals, timing, found.
Qed.


End Call.

(** *** Collaborators that throw *)

Lemma world_eta (w : World) :
  mkWorld (trace w) (reads w) (timer w) (waiting w) (queue w) = w.
Proof. now destruct w. Qed.

Lemma calls_only_ret {A : Type} (a : A) : calls_only (ret a).
Proof.
  intros w. exists [], []. split; [| intros ev []].
  simpl. rewrite !app_nil_r. symmetry. apply world_eta.
Qed.

Lemma calls_only_throw {A : Type} (e : Error) : calls_only (@throw A e).
Proof.
  intros w. exists [], []. split; [| intros ev []].
  simpl. rewrite !app_nil_r. symmetry. apply world_eta.
Qed.

Lemma calls_only_emit (ev : Event) : is_call ev = true -> calls_only (emit ev).
Proof.
  intros Hev w. exists [ev], []. split.
  - unfold emit, set_trace. simpl. now rewrite app_nil_r.
  - intros ev' [<- | []]. exact Hev.
Qed.

(** Calls after calls are calls. *)
Lemma calls_only_then {B C : Type} (m : World -> B * World)
    (k : B -> World -> C * World) :
  calls_only m -> (forall b, calls_only (k b)) ->
  calls_only (fun w => k (fst (m w)) (snd (m w))).
Proof.
  intros Hm Hk w.
  destruct (Hm w) as (evs & rcs & Hw & Hevs).
  destruct (Hk (fst (m w)) (snd (m w))) as (evs' & rcs' & Hw' & Hevs').
  exists (evs ++ evs'), (rcs ++ rcs'). split.
  - rewrite Hw'. rewrite Hw. simpl. unfold pending_reads.
    now rewrite map_app, !app_assoc.
  - intros ev Hin. apply in_app_or in Hin as [Hin | Hin]; auto.
Qed.

Lemma calls_only_bind {A B : Type} (m : Eff A) (k : A -> Eff B) :
  calls_only m -> (forall a, calls_only (k a)) -> calls_only (bind m k).
Proof.
  intros Hm Hk w.
  pose proof (calls_only_then m
                (fun c => match c with
                          | Normal a => k a
                          | Throw e => throw e
                          end) Hm) as H.
  destruct (H (fun c => match c with
                        | Normal a => Hk a
                        | Throw e => calls_only_throw e
                        end) w) as (evs & rcs & Hw & Hevs).
  exists evs, rcs. split; [| exact Hevs].
  rewrite <- Hw. unfold bind. now destruct (m w) as [[a | e] w1].
Qed.

Section Throwing.

Variable faults : Faults.
Variable kernelName : string.
Variable inputs : NamedTensorMap.
Variable F : ThrowingFn.

Local Abbreviation invoke_wrapper' :=
  (invoke_wrapper_with F).
Local Abbreviation forEach_results' :=
  (forEach_results_with faults kernelName inputs).
Local Abbreviation profileKernel' :=
  (profileKernel_with faults this kernelName inputs F).
Local Abbreviation profile_and_run' :=
  (profile_and_run_with digits_of faults this kernelName inputs F).
Local Abbreviation undefined_read :=
  "TypeError: Cannot read properties of undefined".

Lemma calls_only_wrapper (k : nat) : calls_only (holdResultWrapperFn_with F k).
Proof.
  apply calls_only_bind; [now apply calls_only_emit |].
  intros _. destruct (F k); [apply calls_only_ret | apply calls_only_throw].
Qed.

Lemma calls_only_invoke_wrapper (n k : nat) (result : option KernelOutput) :
  calls_only (invoke_wrapper' n k result).
Proof.
  revert k result. induction n as [| n IH]; intros k result w; simpl.
  - exists [], []. split; [| intros ev []].
    simpl. rewrite !app_nil_r. symmetry. apply world_eta.
  - destruct (calls_only_wrapper k w) as (evs & rcs & Hw & Hevs).
    destruct (holdResultWrapperFn_with F k w) as [[r | e] w1]; simpl in Hw.
    + destruct (IH (S k) r w1) as (evs' & rcs' & Hw' & Hevs').
      exists (evs ++ evs'), (rcs ++ rcs'). split.
      * rewrite Hw'. rewrite Hw. simpl. unfold pending_reads.
        now rewrite map_app, !app_assoc.
      * intros ev Hin. apply in_app_or in Hin as [Hin | Hin]; auto.
    + exists evs, rcs. split; [exact Hw | exact Hevs].
Qed.

Lemma calls_only_time (result : option KernelOutput) :
  calls_only (backendTimer_time_with faults this F result).
Proof.
  apply calls_only_bind; [now apply calls_only_emit |].
  intros _ w.
  destruct (calls_only_invoke_wrapper (sync_calls (backendTimer this)) 0
              result w) as (evs & rcs & Hw & Hevs).
  exists evs, rcs. split; [| exact Hevs]. rewrite <- Hw.
  destruct (invoke_wrapper' (sync_calls (backendTimer this)) 0 result w)
    as [[r [e |]] w1]; simpl.
  - now destruct (time_catches faults).
  - now destruct (time_throws faults).
Qed.

Lemma calls_only_forEach_results (rs : list (option TensorInfo)) (i : nat) :
  calls_only (forEach_results' rs i).
Proof.
  revert i. induction rs as [| [r |] rs IH]; intros i; simpl.
  - apply calls_only_ret.
  - apply calls_only_bind; [| intros _; apply IH].
    apply calls_only_bind; [now apply calls_only_emit |].
    intros _. destruct (read_throws faults i); [apply calls_only_throw |].
    intros w. exists [], [mkReaction kernelName inputs r]. split; [| intros ev []].
    unfold set_reads. simpl. now rewrite app_nil_r.
  - apply calls_only_throw.
Qed.

Lemma calls_only_profileKernel : calls_only profileKernel'.
Proof.
  apply calls_only_bind; [apply calls_only_time |].
  intros result. apply calls_only_bind; [apply calls_only_forEach_results |].
  intros _. apply calls_only_ret.
Qed.

(** When the call ends, normally or not, the world holds calls and pending
    reads only. *)
Lemma world_after_call :
  exists tr rcs,
    snd (profileKernel' start) = mkWorld tr (pending_reads rcs) Pending [] [] /\
    forall ev, In ev tr -> is_call ev = true.
Proof.
  destruct (calls_only_profileKernel start) as (evs & rcs & Hw & Hevs).
  exists evs, rcs. split; [exact Hw | exact Hevs].
Qed.

(** How the invocations of the wrapper end: what was thrown was thrown by
    the closure, and [result] is never made undefined again. *)
Lemma invoke_wrapper_thrown (n k : nat) (result : option KernelOutput)
    (w : World) (e : Error) :
  snd (fst (invoke_wrapper' n k result w)) = Some e ->
  exists j, k <= j < k + n /\ F j = Throw e.
Proof.
  revert k result w. induction n as [| n IH]; intros k result w; simpl.
  - discriminate.
  - unfold holdResultWrapperFn_with, bind, emit.
    destruct (F k) as [out | e'] eqn:HF; simpl.
    + intros H. apply IH in H as (j & Hj & HFj). exists j. split; [lia | exact HFj].
    + intros [= <-]. exists k. split; [lia | exact HF].
Qed.

Lemma invoke_wrapper_defined (n k : nat) (out : KernelOutput) (w : World) :
  fst (fst (invoke_wrapper' n k (Some out) w)) <> None.
Proof.
  revert k out w. induction n as [| n IH]; intros k out w; simpl.
  - discriminate.
  - unfold holdResultWrapperFn_with, bind, emit.
    destruct (F k) as [out' | e']; simpl; [apply IH | discriminate].
Qed.

Lemma invoke_wrapper_undefined (n k : nat) (w : World) :
  fst (fst (invoke_wrapper' n k None w)) = None ->
  n = 0 \/
  exists e, F k = Throw e /\ snd (fst (invoke_wrapper' n k None w)) = Some e.
Proof.
  destruct n as [| n]; [now left |]. simpl.
  unfold holdResultWrapperFn_with, bind, emit.
  destruct (F k) as [out | e]; simpl.
  - intros H. now apply invoke_wrapper_defined in H.
  - intros _. right. now exists e.
Qed.

(** What the invocations give when all of them return, and when one of
    them throws. *)
Lemma invoke_wrapper_all_return (n k : nat) (result : option KernelOutput)
    (w : World) :
  (forall j, j < n -> exists out, F (k + j) = Normal out) ->
  exists r w1,
    invoke_wrapper' n k result w = (r, None, w1) /\
    match n with
    | O => r = result
    | S m => exists out, F (k + m) = Normal out /\ r = Some out
    end.
Proof.
  revert k result w. induction n as [| n IH]; intros k result w Hall; simpl.
  - now exists result, w.
  - unfold holdResultWrapperFn_with, bind, emit.
    destruct (Hall 0) as [out HF]; [lia |]. rewrite Nat.add_0_r in HF.
    rewrite HF. simpl.
    destruct (IH (S k) (Some out)
                (set_trace (trace w ++ [EvCompute k]) w)) as (r & w1 & -> & Hr).
    { intros j Hj. destruct (Hall (S j)) as [out' HF']; [lia |].
      exists out'. now rewrite Nat.add_succ_r in HF'. }
    exists r, w1. split; [reflexivity |]. destruct n as [| m].
    + subst r. exists out. now rewrite Nat.add_0_r.
    + destruct Hr as (out' & HF' & ->). exists out'.
      split; [| reflexivity]. now rewrite Nat.add_succ_r.
Qed.

Lemma invoke_wrapper_first_throw (n k j : nat) (result : option KernelOutput)
    (w : World) (e : Error) :
  j < n ->
  (forall j', j' < j -> exists o, F (k + j') = Normal o) ->
  F (k + j) = Throw e ->
  exists r w1,
    invoke_wrapper' n k result w = (r, Some e, w1) /\
    (j = 0 -> r = result).
Proof.
  revert k j result w. induction n as [| n IH]; intros k j result w Hj Hall HF;
    [lia |].
  simpl. unfold holdResultWrapperFn_with, bind, emit.
  destruct j as [| j].
  - rewrite Nat.add_0_r in HF. rewrite HF. simpl. eauto.
  - destruct (Hall 0) as [o Ho]; [lia |]. rewrite Nat.add_0_r in Ho.
    rewrite Ho. simpl.
    destruct (IH (S k) j (Some o) (set_trace (trace w ++ [EvCompute k]) w))
      as (r & w1 & -> & _); [lia | | |].
    + intros j' Hj'. destruct (Hall (S j')) as [o' Ho']; [lia |].
      exists o'. now rewrite Nat.add_succ_r in Ho'.
    + now rewrite Nat.add_succ_r in HF.
    + exists r, w1. split; [reflexivity | discriminate].
Qed.

(** How the loop over the results ends. *)
Lemma forEach_results_throws (rs : list (option TensorInfo)) (i : nat)
    (w : World) (e : Error) :
  fst (forEach_results' rs i w) = Throw e ->
  (In None rs /\ e = undefined_read) \/
  exists j, i <= j < i + List.length rs /\ read_throws faults j = Some e.
Proof.
  revert i w. induction rs as [| [r |] rs IH]; intros i w; simpl.
  - discriminate.
  - unfold bind at 1. unfold dataReader_then_with, bind, emit.
    destruct (read_throws faults i) as [e' |] eqn:Hr; simpl.
    + intros [= <-]. right. exists i. split; [lia | exact Hr].
    + intros H. apply IH in H as [[Hin He] | (j & Hj & Hrj)].
      * left. split; [now right | exact He].
      * right. exists j. split; [lia | exact Hrj].
  - intros [= <-]. left. split; [now left | reflexivity].
Qed.

Lemma forEach_results_returns (rs : list TensorInfo) (i : nat) (w : World) :
  (forall j, j < List.length rs -> read_throws faults (i + j) = None) ->
  fst (forEach_results' (map Some rs) i w) = Normal tt.
Proof.
  revert i w. induction rs as [| r rs IH]; intros i w Hall; simpl.
  - reflexivity.
  - unfold bind at 1. unfold dataReader_then_with, bind, emit.
    pose proof (Hall 0 ltac:(simpl; lia)) as Hr. rewrite Nat.add_0_r in Hr.
    rewrite Hr. simpl. apply IH. intros j Hj.
    replace (S i + j) with (i + S j) by lia. apply Hall. simpl. lia.
Qed.

Lemma forEach_results_first_throw (rs : list TensorInfo) (i j : nat)
    (w : World) (e : Error) :
  j < List.length rs ->
  (forall j', j' < j -> read_throws faults (i + j') = None) ->
  read_throws faults (i + j) = Some e ->
  fst (forEach_results' (map Some rs) i w) = Throw e.
Proof.
  revert i j w. induction rs as [| r rs IH]; intros i j w Hj Hall Hr;
    [simpl in Hj; lia |].
  simpl. unfold bind at 1. unfold dataReader_then_with, bind, emit.
  destruct j as [| j].
  - rewrite Nat.add_0_r in Hr. rewrite Hr. reflexivity.
  - pose proof (Hall 0 ltac:(lia)) as H0. rewrite Nat.add_0_r in H0.
    rewrite H0. simpl. apply (IH (S i) j); [simpl in Hj; lia | |].
    + intros j' Hj'. replace (S i + j') with (i + S j') by lia.
      apply Hall. lia.
    + now replace (S i + j) with (i + S j) by lia.
Qed.

Lemma as_results_undefined (result : option KernelOutput) :
  In None (as_results result) -> result = None.
Proof.
  destruct result as [[t | ts] |]; simpl; [| | reflexivity].
  - intros [H | []]. discriminate.
  - intros H. apply in_map_iff in H as (t & H & _). discriminate.
Qed.

(** The call, once [time] has returned with [result] equal to [r]. *)
Lemma profileKernel_with_unfold :
  fst (profileKernel' start)
  = match invoke_wrapper' (sync_calls (backendTimer this)) 0 None
            (set_trace (trace start ++ [EvTime]) start) with
    | (r, thrown, w1) =>
        match
          match thrown with
          | Some e => if time_catches faults then None else Some e
          | None => time_throws faults
          end
        with
        | Some e => Throw e
        | None =>
            match fst (forEach_results' (as_results r) 0 w1) with
            | Normal _ => Normal r
            | Throw e => Throw e
            end
        end
    end.
Proof.
  unfold profileKernel_with, backendTimer_time_with.
  unfold bind at 1 2. unfold emit at 1.
  destruct (invoke_wrapper' (sync_calls (backendTimer this)) 0 None
              (set_trace (trace start ++ [EvTime]) start))
    as [[r [e |]] w1].
  - destruct (time_catches faults); [| reflexivity].
    unfold bind. now destruct (forEach_results' (as_results r) 0 w1) as [[[] | e'] w2].
  - destruct (time_throws faults); [reflexivity |].
    unfold bind. now destruct (forEach_results' (as_results r) 0 w1) as [[[] | e'] w2].
Qed.

(** Every exception that leaves the call was thrown by a collaborator, or
    is the TypeError of a result that is still undefined. *)
Lemma profileKernel_throws_why (e : Error) :
  fst (profileKernel' start) = Throw e ->
  (time_catches faults = false /\
   exists k, k < sync_calls (backendTimer this) /\ F k = Throw e) \/
  time_throws faults = Some e \/
  (e = undefined_read /\
   (sync_calls (backendTimer this) = 0 \/
    time_catches faults = true /\ exists e', F 0 = Throw e')) \/
  (exists i, read_throws faults i = Some e).
Proof.
  rewrite profileKernel_with_unfold.
  pose proof (invoke_wrapper_thrown (sync_calls (backendTimer this)) 0 None
                (set_trace (trace start ++ [EvTime]) start)) as Hthrown.
  pose proof (invoke_wrapper_undefined (sync_calls (backendTimer this)) 0
                (set_trace (trace start ++ [EvTime]) start)) as Hundef.
  destruct (invoke_wrapper' (sync_calls (backendTimer this)) 0 None
              (set_trace (trace start ++ [EvTime]) start))
    as [[r thrown] w1].
  simpl in Hthrown, Hundef.
  assert (Hloop :
            match fst (forEach_results' (as_results r) 0 w1) with
            | Normal _ => Normal r
            | Throw e0 => Throw e0
            end = Throw e ->
            (r = None /\ e = undefined_read) \/
            (exists i, read_throws faults i = Some e)).
  { intros H.
    destruct (fst (forEach_results' (as_results r) 0 w1)) as [[] | e0] eqn:Hfor;
      [discriminate |].
    injection H as ->.
    destruct (forEach_results_throws _ _ _ _ Hfor) as [[Hin He] | (j & _ & Hj)].
    - left. split; [now apply as_results_undefined | exact He].
    - right. now exists j. }
  destruct thrown as [e0 |].
  - destruct (time_catches faults) eqn:Hc.
    + intros H. destruct (Hloop H) as [[Hr He] | Hread]; [| auto 6].
      right. right. left. split; [exact He |].
      destruct (Hundef Hr) as [Hn | (e' & He' & _)]; [now left |].
      right. split; [reflexivity | now exists e'].
    + intros [= <-]. left. split; [reflexivity |].
      destruct (Hthrown e0 eq_refl) as (j & Hj & HF).
      exists j. split; [lia | exact HF].
  - destruct (time_throws faults) as [e0 |] eqn:Ht.
    + intros [= <-]. right. now left.
    + intros H. destruct (Hloop H) as [[Hr He] | Hread]; [| auto 6].
      right. right. left. split; [exact He |].
      destruct (Hundef Hr) as [Hn | (e' & _ & Habs)]; [now left | discriminate].
Qed.

(** Each cause does reach the caller. *)
Lemma profileKernel_with_throws_closure (k : nat) (e : Error) :
  time_catches faults = false ->
  k < sync_calls (backendTimer this) ->
  (forall j, j < k -> exists o, F j = Normal o) ->
  F k = Throw e ->
  fst (profileKernel' start) = Throw e.
Proof.
  intros Hc Hk Hall HF. rewrite profileKernel_with_unfold.
  destruct (invoke_wrapper_first_throw (sync_calls (backendTimer this)) 0 k
              None (set_trace (trace start ++ [EvTime]) start) e Hk Hall HF)
    as (r & w1 & -> & _).
  now rewrite Hc.
Qed.

Lemma profileKernel_with_throws_caught (e : Error) :
  time_catches faults = true ->
  0 < sync_calls (backendTimer this) ->
  F 0 = Throw e ->
  fst (profileKernel' start) = Throw undefined_read.
Proof.
  intros Hc Hn HF. rewrite profileKernel_with_unfold.
  destruct (invoke_wrapper_first_throw (sync_calls (backendTimer this)) 0 0
              None (set_trace (trace start ++ [EvTime]) start) e Hn)
    as (r & w1 & -> & Hr); [intros j' Hj'; lia | exact HF |].
  rewrite Hc, (Hr eq_refl). reflexivity.
Qed.

Lemma profileKernel_with_throws_timer (e : Error) :
  (forall j, j < sync_calls (backendTimer this) -> exists o, F j = Normal o) ->
  time_throws faults = Some e ->
  fst (profileKernel' start) = Throw e.
Proof.
  intros Hall Ht. rewrite profileKernel_with_unfold.
  destruct (invoke_wrapper_all_return (sync_calls (backendTimer this)) 0 None
              (set_trace (trace start ++ [EvTime]) start) Hall)
    as (r & w1 & -> & _).
  now rewrite Ht.
Qed.

Lemma profileKernel_with_throws_undefined :
  sync_calls (backendTimer this) = 0 ->
  time_throws faults = None ->
  fst (profileKernel' start) = Throw undefined_read.
Proof.
  intros Hn Ht. rewrite profileKernel_with_unfold, Hn. simpl.
  now rewrite Ht.
Qed.

Lemma profileKernel_with_loop (k : nat) (out : KernelOutput) :
  sync_calls (backendTimer this) = S k ->
  (forall j, j <= k -> exists o, F j = Normal o) ->
  F k = Normal out ->
  time_throws faults = None ->
  exists w1,
    fst (profileKernel' start)
    = match fst (forEach_results' (map Some (outputs out)) 0 w1) with
      | Normal _ => Normal (Some out)
      | Throw e => Throw e
      end.
Proof.
  intros Hn Hall HF Ht. rewrite profileKernel_with_unfold, Hn.
  destruct (invoke_wrapper_all_return (S k) 0 None
              (set_trace (trace start ++ [EvTime]) start))
    as (r & w1 & -> & out' & HF' & ->);
    [intros j Hj; apply Hall; lia |].
  simpl in HF'. rewrite HF in HF'. injection HF' as <-.
  rewrite Ht, as_results_outputs. now exists w1.
Qed.

Lemma profileKernel_with_throws_reader (k : nat) (out : KernelOutput)
    (i : nat) (e : Error) :
  sync_calls (backendTimer this) = S k ->
  (forall j, j <= k -> exists o, F j = Normal o) ->
  F k = Normal out ->
  time_throws faults = None ->
  i < List.length (outputs out) ->
  (forall j, j < i -> read_throws faults j = None) ->
  read_throws faults i = Some e ->
  fst (profileKernel' start) = Throw e.
Proof.
  intros Hn Hall HF Ht Hi Hbefore Hr.
  destruct (profileKernel_with_loop k out Hn Hall HF Ht) as [w1 ->].
  now rewrite (forEach_results_first_throw (outputs out) 0 i w1 e Hi Hbefore Hr).
Qed.

(** When no collaborator throws and the timer has run the wrapper, the call
    returns what the last invocation of the closure returned. *)
Lemma profileKernel_with_returns (k : nat) (out : KernelOutput) :
  sync_calls (backendTimer this) = S k ->
  (forall j, j <= k -> exists o, F j = Normal o) ->
  F k = Normal out ->
  time_throws faults = None ->
  (forall i, i < List.length (outputs out) -> read_throws faults i = None) ->
  fst (profileKernel' start) = Normal (Some out).
Proof.
  intros Hn Hall HF Ht Hr.
  destruct (profileKernel_with_loop k out Hn Hall HF Ht) as [w1 ->].
  now rewrite (forEach_results_returns (outputs out) 0 w1 Hr).
Qed.

(** With collaborators that return, this is [profileKernel]. *)
Lemma profileKernel_with_no_faults (f : ComputeFn) (w : World) :
  profileKernel_with no_faults this kernelName inputs (returning f) w
  = profileKernel this kernelName inputs f w.
Proof.
  assert (Hinv : forall n k result w0,
             invoke_wrapper_with (returning f) n k result w0
             = (match fst (invoke_wrapper f n k result w0) with
                | Normal r => r
                | Throw _ => None
                end, None, snd (invoke_wrapper f n k result w0))).
  { induction n as [| n IH]; intros k result w0; simpl; [reflexivity |].
    unfold holdResultWrapperFn_with, holdResultWrapperFn, returning.
    unfold bind, emit, ret. apply IH. }
  assert (Hfor : forall rs i w0,
             forEach_results_with no_faults kernelName inputs rs i w0
             = forEach_results kernelName inputs rs i w0).
  { induction rs as [| [r |] rs IH]; intros i w0; reflexivity. }
  unfold profileKernel_with, profileKernel, backendTimer_time_with,
    backendTimer_time.
  unfold bind, emit. rewrite Hinv, invoke_wrapper_spec. simpl.
  unfold ret at 1. rewrite Hfor. reflexivity.
Qed.

Lemma profile_and_run_with_no_faults (f : ComputeFn)
    (sched : list (list Settle)) :
  profile_and_run_with digits_of no_faults this kernelName inputs (returning f)
    sched
  = profile_and_run digits_of this kernelName inputs f sched.
Proof.
  unfold profile_and_run_with, profile_and_run.
  now rewrite profileKernel_with_no_faults.
Qed.

(** C8. [checkComputationForErrors] never throws, and nothing that happens
    after [profileKernel] has returned reaches its caller: whatever the
    schedule, the logger and the outcomes of the reads and of the timer, an
    exception received by the caller was thrown during the call by the
    compute closure (and not caught by [time]), by [time] or by
    [dataReader], or is the TypeError raised because [result] was still
    undefined when [time] returned.  Each of these does reach the caller,
    and when the timer has run the wrapper and none of the three
    collaborators throws, the call returns the closure's value.  A rejected
    read and an exception thrown by the logger end as unhandled
    rejections. *)
Theorem errors_reaching_the_caller (sched : list (list Settle)) :
  (forall vals dtype name,
     exists found,
       snd (checkComputationForErrors digits_of vals dtype name)
       = Normal found) /\
  (forall e,
     fst (profile_and_run' sched) = Throw e ->
     (time_catches faults = false /\
      exists k, k < sync_calls (backendTimer this) /\ F k = Throw e) \/
     time_throws faults = Some e \/
     (e = "TypeError: Cannot read properties of undefined" /\
      (sync_calls (backendTimer this) = 0 \/
       time_catches faults = true /\ exists e', F 0 = Throw e')) \/
     (exists i, read_throws faults i = Some e)) /\
  (forall k e,
     time_catches faults = false ->
     k < sync_calls (backendTimer this) ->
     (forall j, j < k -> exists o, F j = Normal o) ->
     F k = Throw e ->
     fst (profile_and_run' sched) = Throw e) /\
  (forall e,
     time_catches faults = true ->
     0 < sync_calls (backendTimer this) ->
     F 0 = Throw e ->
     fst (profile_and_run' sched)
     = Throw "TypeError: Cannot read properties of undefined") /\
  (forall e,
     (forall j, j < sync_calls (backendTimer this) -> exists o, F j = Normal o) ->
     time_throws faults = Some e ->
     fst (profile_and_run' sched) = Throw e) /\
  (sync_calls (backendTimer this) = 0 ->
   time_throws faults = None ->
   fst (profile_and_run' sched)
   = Throw "TypeError: Cannot read properties of undefined") /\
  (forall k out,
     sync_calls (backendTimer this) = S k ->
     (forall j, j <= k -> exists o, F j = Normal o) ->
     F k = Normal out ->
     time_throws faults = None ->
     (forall i e,
        i < List.length (outputs out) ->
        (forall j, j < i -> read_throws faults j = None) ->
        read_throws faults i = Some e ->
        fst (profile_and_run' sched) = Throw e) /\
     ((forall i, i < List.length (outputs out) -> read_throws faults i = None) ->
      fst (profile_and_run' sched) = Normal (Some out))) /\
  (forall i e,
     In (EvReadSettled i (Rejected e)) (trace (snd (profile_and_run' sched))) ->
     In (EvUnhandled e) (trace (snd (profile_and_run' sched)))) /\
  (forall i c out e,
     In (EvLog i c) (trace (snd (profile_and_run' sched))) ->
     log_method (logger this) c = (out, Throw e) ->
     In (EvUnhandled e) (trace (snd (profile_and_run' sched)))).
Proof.
  destruct world_after_call as (tr & rcs & Hw & Htr).
  repeat apply conj.
  - intros vals dtype name. apply checkComputationForErrors_normal.
  - intros e. apply profileKernel_throws_why.
  - intros k e. apply profileKernel_with_throws_closure.
  - intros e. apply profileKernel_with_throws_caught.
  - intros e. apply profileKernel_with_throws_timer.
  - apply profileKernel_with_throws_undefined.
  - intros k out Hn Hall HF Ht. split.
    + intros i e. now apply (profileKernel_with_throws_reader k out i e).
    + now apply (profileKernel_with_returns k out).
  - unfold profile_and_run_with. cbn [snd].
    apply (run_preserves rejections_unhandled step_rejections_unhandled).
    rewrite Hw. intros i e Hin. apply Htr in Hin. discriminate.
  - unfold profile_and_run_with. cbn [snd].
    apply (run_preserves (throws_unhandled this) step_throws_unhandled).
    rewrite Hw. intros i c out e Hin. apply Htr in Hin. discriminate.
Qed.

End Throwing.

End Asynchronous.

(** * Further properties *)

(** ** Output validation *)

Section ValidationMore.

Variable digits_of : number -> string.

Lemma scan_vals_app (a b : BackendValues) (kernelName : string) :
  scan_vals digits_of (a ++ b) kernelName
  = match snd (scan_vals digits_of a kernelName) with
    | Normal true => scan_vals digits_of a kernelName
    | _ => scan_vals digits_of b kernelName
    end.
Proof.
  induction a as [| num a IH]; simpl; [reflexivity |].
  destruct (isNaN num || negb (isFinite num)); [reflexivity | exact IH].
Qed.

(** X1. Validating two sequences one after the other as one sequence: if the
    first one has an offending value the result, warning included, is that
    of the first one alone; otherwise it is that of the second one alone. *)
Theorem checkComputationForErrors_app
    (a b : BackendValues) (dtype : DataType) (kernelName : string) :
  checkComputationForErrors digits_of (a ++ b) dtype kernelName
  = match snd (checkComputationForErrors digits_of a dtype kernelName) with
    | Normal true => checkComputationForErrors digits_of a dtype kernelName
    | _ => checkComputationForErrors digits_of b dtype kernelName
    end.
Proof.
  unfold checkComputationForErrors.
  destruct (negb (DataType_eqb dtype float32)); [reflexivity |].
  apply scan_vals_app.
Qed.

Lemma scan_vals_outcomes (vals : BackendValues) (kernelName : string) :
  scan_vals digits_of vals kernelName = ([], Normal false) \/
  exists lit,
    (lit = "NaN" \/ lit = "Infinity" \/ lit = "-Infinity") /\
    scan_vals digits_of vals kernelName
    = ([ConsoleWarn ("Found " +:+ lit +:+ " in the result of '"
                     +:+ kernelName +:+ "'")],
       Normal true).
Proof.
  induction vals as [| num rest IH]; simpl; [now left |].
  destruct (isNaN num || negb (isFinite num)) eqn:Hnum; [| exact IH].
  right. apply offending_cases in Hnum as [-> | [-> | ->]].
  - exists "NaN". auto.
  - exists "Infinity". auto.
  - exists "-Infinity". auto.
Qed.

Lemma validation_cases
    (vals : BackendValues) (dtype : DataType) (kernelName : string) :
  checkComputationForErrors digits_of vals dtype kernelName
  = ([], Normal false) \/
  exists lit,
    (lit = "NaN" \/ lit = "Infinity" \/ lit = "-Infinity") /\
    checkComputationForErrors digits_of vals dtype kernelName
    = ([ConsoleWarn ("Found " +:+ lit +:+ " in the result of '"
                     +:+ kernelName +:+ "'")],
       Normal true).
Proof.
  unfold checkComputationForErrors.
  destruct (negb (DataType_eqb dtype float32)); [now left |].
  apply scan_vals_outcomes.
Qed.

(** X2. Whatever the values, the data type and the way finite numbers are
    printed, the function does one of two things: it writes nothing and
    returns false, or it writes one warning and returns true, and the
    warning reads "Found NaN", "Found Infinity" or "Found -Infinity",
    followed by " in the result of '", the kernel name and "'". *)
Theorem checkComputationForErrors_outcomes
    (vals : BackendValues) (dtype : DataType) (kernelName : string) :
  checkComputationForErrors digits_of vals dtype kernelName
  = ([], Normal false) \/
  exists lit,
    (lit = "NaN" \/ lit = "Infinity" \/ lit = "-Infinity") /\
    checkComputationForErrors digits_of vals dtype kernelName
    = ([ConsoleWarn ("Found " +:+ lit +:+ " in the result of '"
                     +:+ kernelName +:+ "'")],
       Normal true).
Proof. apply validation_cases. Qed.

End ValidationMore.

(** ** The reactions *)

Lemma split_at_only {A : Type} (P : A -> bool) (l1 : list A) (x : A)
    (t p q : list A) (x' : A) :
  (forall y, In y l1 -> P y = false) ->
  (forall y, In y t -> P y = false) ->
  P x' = true ->
  l1 ++ x :: t = p ++ x' :: q ->
  p = l1 /\ x = x' /\ q = t.
Proof.
  intros Hl1 Ht Hx'. revert p.
  induction l1 as [| y l1 IH]; intros p H; simpl in H.
  - destruct p as [| z p]; simpl in H; inversion H; subst; [auto |].
    rewrite (Ht x') in Hx' by (apply in_or_app; right; now left).
    discriminate.
  - destruct p as [| z p]; simpl in H; inversion H; subst.
    + rewrite (Hl1 x') in Hx' by (now left). discriminate.
    + destruct (IH (fun y' Hy => Hl1 y' (or_intror Hy)) p H2) as (-> & -> & ->).
      auto.
Qed.

Lemma no_split {A : Type} (P : A -> bool) (l p q : list A) (x' : A) :
  (forall y, In y l -> P y = false) -> P x' = true -> l <> p ++ x' :: q.
Proof.
  intros Hl Hx' ->.
  rewrite (Hl x') in Hx' by (apply in_or_app; right; now left).
  discriminate.
Qed.

Lemma console_not (P : Event -> bool) (out : list Output) :
  (forall o, P (EvConsole o) = false) ->
  forall y, In y (map EvConsole out) -> P y = false.
Proof. intros HP y Hy. apply in_map_iff in Hy as (o & <- & _). apply HP. Qed.

Lemma omap_console {B : Type} (g : Event -> option B) (out : list Output) :
  (forall o, g (EvConsole o) = None) -> omap g (map EvConsole out) = [].
Proof.
  intros Hg. induction out as [| o out IH]; [reflexivity |].
  cbn. rewrite Hg. exact IH.
Qed.

Lemma omap_unhandled {A B : Type} (g : Event -> option B) (e : Error)
    (l : list A) :
  g (EvUnhandled e) = None -> omap g (map (fun _ => EvUnhandled e) l) = [].
Proof.
  intros Hg. induction l as [| x l IH]; [reflexivity |].
  cbn. rewrite Hg. exact IH.
Qed.

Lemma job_log_order_waiters (timing : BackendTimingInfo)
    (ws : list (nat * Reaction * BackendValues)) :
  job_log_order (map (waiter_job timing) ws) = waiting_order ws.
Proof.
  induction ws as [| x ws IH]; [reflexivity |].
  cbn. f_equal. exact IH.
Qed.

Section AsynchronousMore.

Variable digits_of : number -> string.
Variable this : Profiler.

Local Abbreviation check rc vals :=
  (checkComputationForErrors digits_of vals (dtype (rc_r rc)) (rc_kernelName rc)).
Local Abbreviation step := (step digits_of this).
Local Abbreviation run' := (run digits_of this).

Ltac step_cases Hs :=
  destruct Hs as
    [ w0 j rj valsj Hj
    | w0 j rj ej Hj
    | w0 tm Htm
    | w0 etm Htm
    | w0 j rj valsj q out b Hq Hc Htm
    | w0 j rj valsj q out b tm Hq Hc Htm
    | w0 j rj valsj q out b etm Hq Hc Htm
    | w0 j rj valsj tm q out c Hq Hl ].

Ltac no_such_event :=
  let y := fresh "y" in
  let Hy := fresh "Hy" in
  solve [ intros y Hy; simpl in Hy;
          repeat (destruct Hy as [<- | Hy]; [reflexivity |]);
          try contradiction;
          try (apply in_map_iff in Hy as (? & <- & _); reflexivity) ].

(** Only the reaction of a read adds a validation to the trace, right after
    what the validation wrote. *)
Lemma step_new_check (w w' : World) (pre' post : list Event)
    (i : nat) (found : bool) :
  step w w' ->
  trace w' = trace w ++ pre' ++ EvCheck i found :: post ->
  exists rc vals q out,
    queue w = JobRead i rc vals :: q /\
    check rc vals = (out, Normal found) /\
    pre' = map EvConsole out.
Proof.
  intros Hs Htr.
  step_cases Hs; simpl in Htr; apply app_inv_head in Htr;
    try (exfalso; revert Htr; apply (no_split any_check);
         [no_such_event | reflexivity]).
  - apply (split_at_only any_check) in Htr as (-> & Heq & _);
      [| now apply console_not | no_such_event | reflexivity].
    inversion Heq; subst. now exists rj, valsj, q, out.
  - apply (split_at_only any_check) in Htr as (-> & Heq & _);
      [| now apply console_not | no_such_event | reflexivity].
    inversion Heq; subst. now exists rj, valsj, q, out.
  - apply (split_at_only any_check) in Htr as (-> & Heq & _);
      [| now apply console_not | no_such_event | reflexivity].
    inversion Heq; subst. now exists rj, valsj, q, out.
  - exfalso. revert Htr. apply (no_split any_check); [| reflexivity].
    intros y [<- | Hy]; [reflexivity |].
    apply in_app_or in Hy as [Hy | Hy].
    + revert y Hy. now apply console_not.
    + destruct c as [[] | e]; simpl in Hy; [contradiction |].
      destruct Hy as [<- | []]. reflexivity.
Qed.

(** Only the logging reaction adds a logger call, followed by what the
    logger wrote and by the rejection it caused. *)
Lemma step_new_log_post (w w' : World) (pre' post : list Event)
    (i : nat) (call : LogCall) :
  step w w' ->
  trace w' = trace w ++ pre' ++ EvLog i call :: post ->
  pre' = [] /\
  post = map EvConsole (fst (log_method (logger this) call))
         ++ rejection_of (snd (log_method (logger this) call)).
Proof.
  intros Hs Htr.
  step_cases Hs; simpl in Htr; apply app_inv_head in Htr;
    try (exfalso; revert Htr; apply (no_split any_log);
         [no_such_event | reflexivity]).
  - exfalso. revert Htr. apply (no_split any_log); [| reflexivity].
    intros y Hy. apply in_app_or in Hy as [Hy | Hy];
      [revert y Hy; now apply console_not | revert y Hy; no_such_event].
  - exfalso. revert Htr. apply (no_split any_log); [| reflexivity].
    intros y Hy. apply in_app_or in Hy as [Hy | Hy];
      [revert y Hy; now apply console_not | revert y Hy; no_such_event].
  - exfalso. revert Htr. apply (no_split any_log); [| reflexivity].
    intros y Hy. apply in_app_or in Hy as [Hy | Hy];
      [revert y Hy; now apply console_not | revert y Hy; no_such_event].
  - apply (split_at_only any_log []) in Htr as (-> & Heq & ->).
    + inversion Heq; subst. rewrite Hl. auto.
    + intros y [].
    + intros y Hy. apply in_app_or in Hy as [Hy | Hy].
      * revert y Hy. now apply console_not.
      * destruct c as [[] | e]; simpl in Hy; [contradiction |].
        destruct Hy as [<- | []]. reflexivity.
    + reflexivity.
Qed.

(** An event of a grown trace stood in the old trace, with more after it
    now, or it is one of the new events. *)
Lemma grown_trace_split {A : Type} (tr evs pre post : list A) (x : A) :
  tr ++ evs = pre ++ x :: post ->
  (exists post', tr = pre ++ x :: post' /\ post = post' ++ evs) \/
  (exists pre', pre = tr ++ pre' /\ evs = pre' ++ x :: post).
Proof.
  intros H. destruct (app_eq_split tr evs pre post x H)
    as [[post' ->] | (pre' & -> & ->)].
  - left. exists post'. split; [reflexivity |].
    rewrite <- app_assoc in H. simpl in H.
    apply app_inv_head in H. now inversion H.
  - right. now exists pre'.
Qed.

Lemma step_checks_justified (w w' : World) :
  step w w' -> Inv w ->
  checks_justified digits_of w -> checks_justified digits_of w'.
Proof.
  intros Hs HI Hold pre post i b Htr.
  destruct (step_trace digits_of this w w' Hs) as (evs & Hevs & _).
  rewrite Hevs in Htr.
  apply grown_trace_split in Htr as [(post' & Htr & _) | (pre' & -> & ->)].
  - destruct (Hold pre post' i b Htr) as (rc & vals & out & Hr & Hc & Hpre).
    exists rc, vals, out. split; [| auto].
    eapply step_reads_settled; eassumption.
  - destruct (step_new_check w w' pre' post i b Hs Hevs)
      as (rc & vals & q & out & Hq & Hc & ->).
    destruct (inv_job_read w HI i rc vals) as [Hr _]; [rewrite Hq; now left |].
    exists rc, vals, out. split; [| split; [exact Hc | now exists (trace w)]].
    eapply step_reads_settled; eassumption.
Qed.

Lemma step_logs_followed (w w' : World) :
  step w w' -> logs_followed this w -> logs_followed this w'.
Proof.
  intros Hs Hold pre post i c Htr.
  destruct (step_trace digits_of this w w' Hs) as (evs & Hevs & _).
  rewrite Hevs in Htr.
  apply grown_trace_split in Htr as [(post' & Htr & ->) | (pre' & -> & ->)].
  - destruct (Hold pre post' i c Htr) as [rest ->].
    exists (rest ++ evs). now rewrite <- !app_assoc.
  - destruct (step_new_log_post w w' pre' post i c Hs Hevs) as (_ & ->).
    exists []. now rewrite app_nil_r.
Qed.

(** Before its read is fulfilled an output has no validation, queued or
    done. *)
Lemma check_tokens_unsettled (w : World) (i : nat) :
  Inv w -> checks_justified digits_of w ->
  (forall rc vals, ~ settled_read w i rc vals) -> check_tokens i w = 0.
Proof.
  intros HI Hj Hno. unfold check_tokens.
  rewrite (count_none (is_job_read i) (queue w)),
          (count_none (is_check i) (trace w)); [reflexivity | |].
  - intros ev Hin. destruct ev; try reflexivity. simpl.
    destruct (Nat.eqb_spec i0 i) as [-> | Hne]; [| reflexivity].
    apply in_split in Hin as (pre & post & Htr).
    destruct (Hj _ _ _ _ Htr) as (rc & vals & _ & Hr & _).
    now destruct (Hno rc vals).
  - intros [k rc vals | k rc vals t] Hin; [| reflexivity]. simpl.
    destruct (Nat.eqb_spec k i) as [-> | Hne]; [| reflexivity].
    destruct (inv_job_read w HI _ _ _ Hin) as (Hr & _).
    now destruct (Hno rc vals).
Qed.

Lemma count_console {P : Event -> bool} (out : list Output) :
  (forall o, P (EvConsole o) = false) -> count P (map EvConsole out) = 0.
Proof. intros HP. apply count_none. now apply console_not. Qed.

Lemma count_job_read_waiters (i : nat) (timing : BackendTimingInfo)
    (ws : list (nat * Reaction * BackendValues)) :
  count (is_job_read i) (map (waiter_job timing) ws) = 0.
Proof.
  apply count_none. intros y Hy. apply in_map_iff in Hy as (x & <- & _).
  reflexivity.
Qed.

Lemma count_check_unhandled (i : nat) (e : Error) {A : Type} (l : list A) :
  count (is_check i) (map (fun _ => EvUnhandled e) l) = 0.
Proof.
  apply count_none. intros y Hy. apply in_map_iff in Hy as (x & <- & _).
  reflexivity.
Qed.

Ltac count_checks :=
  unfold check_tokens in *; simpl in *;
  repeat rewrite ?count_app, ?count_cons, ?count_nil, ?count_job_read_waiters,
    ?count_check_unhandled, ?(count_console (P := is_check _)) in *
    by reflexivity;
  simpl in *.

Lemma step_checks_counted (w w' : World) :
  step w w' -> Inv w -> checks_justified digits_of w ->
  checks_counted w -> checks_counted w'.
Proof.
  intros Hs HI Hjust Hold i rc vals Hr.
  pose proof (check_tokens_unsettled w i HI Hjust) as Hzero.
  specialize (Hold i). unfold settled_read in *.
  step_cases Hs.
  - destruct (decide (j = i)) as [-> | Hne].
    + assert (check_tokens i w0 = 0) as Hz
        by (apply Hzero; intros r' v' H; congruence).
      count_checks. rewrite Nat.eqb_refl. lia.
    + simpl in Hr. rewrite list_lookup_insert_ne in Hr by exact Hne.
      specialize (Hold rc vals Hr). count_checks.
      destruct (Nat.eqb_spec j i); [contradiction | lia].
  - destruct (decide (j = i)) as [-> | Hne].
    + simpl in Hr. rewrite list_lookup_insert_eq in Hr
        by (eapply lookup_lt_Some; eassumption).
      discriminate.
    + simpl in Hr. rewrite list_lookup_insert_ne in Hr by exact Hne.
      specialize (Hold rc vals Hr). count_checks. lia.
  - specialize (Hold rc vals Hr). count_checks. lia.
  - specialize (Hold rc vals Hr). count_checks. lia.
  - specialize (Hold rc vals Hr). count_checks. rewrite Hq in *. count_checks. lia.
  - specialize (Hold rc vals Hr). count_checks. rewrite Hq in *. count_checks. lia.
  - specialize (Hold rc vals Hr). count_checks. rewrite Hq in *. count_checks. lia.
  - specialize (Hold rc vals Hr). count_checks. rewrite Hq in *. count_checks.
    assert (count (is_check i)
              match c with
              | Normal _ => []
              | Throw e => [EvUnhandled e]
              end = 0) as Hc by (now destruct c).
    rewrite Hc in *. lia.
Qed.

Lemma check_order_app (tr evs : list Event) :
  check_order (tr ++ evs) = check_order tr ++ check_order evs.
Proof. apply omap_app. Qed.

Lemma log_order_app (tr evs : list Event) :
  log_order (tr ++ evs) = log_order tr ++ log_order evs.
Proof. apply omap_app. Qed.

Lemma job_log_order_app (q q' : list Job) :
  job_log_order (q ++ q') = job_log_order q ++ job_log_order q'.
Proof. apply omap_app. Qed.

Lemma check_order_console (out : list Output) :
  check_order (map EvConsole out) = [].
Proof. now apply omap_console. Qed.

Lemma log_order_console (out : list Output) :
  log_order (map EvConsole out) = [].
Proof. now apply omap_console. Qed.

Lemma no_waiting_when_settled (w : World) (o : Outcome BackendTimingInfo) :
  Inv w -> timer w = Settled o -> waiting w = [].
Proof.
  intros HI Ht. destruct (waiting w) as [| [[i rc] vals] ws] eqn:E; [reflexivity |].
  destruct (inv_waiting w HI i rc vals) as (Hp & _); [rewrite E; now left |].
  congruence.
Qed.

Ltac orders :=
  simpl;
  repeat rewrite ?check_order_app, ?log_order_app, ?job_log_order_app,
    ?check_order_console, ?log_order_console, ?job_log_order_waiters;
  cbn [check_order log_order job_log_order waiting_order omap map fst snd];
  repeat rewrite ?app_nil_r, <- ?app_assoc.

Lemma step_log_order_kept (w w' : World) :
  step w w' -> Inv w -> log_order_kept w -> log_order_kept w'.
Proof.
  intros Hs HI Hold Hnot. unfold log_order_kept in Hold.
  step_cases Hs; simpl in Hnot.
  - orders. apply Hold, Hnot.
  - orders. apply Hold, Hnot.
  - orders. rewrite Hold by (intros e; congruence).
    now rewrite <- ?app_assoc.
  - now destruct (Hnot etm).
  - specialize (Hold Hnot). rewrite Hq in Hold. revert Hold. orders.
    intros ->. unfold waiting_order. rewrite map_app.
    now rewrite <- ?app_assoc.
  - specialize (Hold Hnot). rewrite Hq in Hold.
    rewrite (no_waiting_when_settled w0 _ HI Htm) in *.
    revert Hold. orders. intros ->. now rewrite <- ?app_assoc.
  - rewrite Htm in Hnot. now destruct (Hnot etm).
  - specialize (Hold Hnot). rewrite Hq in Hold. revert Hold. orders.
    intros ->.
    assert (forall c' l, check_order (EvLog j c' :: l) = check_order l)
      as Hco by reflexivity.
    assert (forall c' l, log_order (EvLog j c' :: l) = j :: log_order l)
      as Hlo by reflexivity.
    rewrite Hco, Hlo, check_order_app, log_order_app, check_order_console,
      log_order_console.
    assert (log_order
              match c with
              | Normal _ => []
              | Throw e => [EvUnhandled e]
              end = []) as -> by (now destruct c).
    assert (check_order
              match c with
              | Normal _ => []
              | Throw e => [EvUnhandled e]
              end = []) as -> by (now destruct c).
    simpl. now rewrite ?app_nil_r, <- ?app_assoc.
Qed.

Lemma step_console_explained (w w' : World) :
  step w w' -> Inv w ->
  console_explained digits_of this w -> console_explained digits_of this w'.
Proof.
  intros Hs HI Hold o Hin. pose proof Hs as Hs'.
  assert (In (EvConsole o) (trace w) ->
          (exists i rc vals,
             settled_read w' i rc vals /\ In o (fst (check rc vals))) \/
          (exists i c,
             In (EvLog i c) (trace w') /\
             In o (fst (log_method (logger this) c)))) as Hkeep.
  { intros H. destruct (Hold o H) as [(i & rc & vals & Hr & Ho) | (i & c & Hl & Ho)].
    - left. exists i, rc, vals. split; [| exact Ho].
      eapply step_reads_settled; eassumption.
    - right. exists i, c. split; [| exact Ho].
      eapply step_trace_In; eassumption. }
  assert (forall i rc vals out' b' rest,
            In (JobRead i rc vals) (queue w) ->
            check rc vals = (out', Normal b') ->
            In (EvConsole o) (map EvConsole out' ++ rest) ->
            (forall o', ~ In (EvConsole o') rest) ->
            exists i rc vals,
              settled_read w' i rc vals /\ In o (fst (check rc vals)))
    as Hread.
  { intros i rc vals out' b' rest Hq Hc Ho Hrest.
    apply in_app_or in Ho as [Ho | Ho]; [| now destruct (Hrest o)].
    apply in_map_iff in Ho as (o' & [= ->] & Ho).
    destruct (inv_job_read w HI i rc vals Hq) as [Hr _].
    exists i, rc, vals. split; [| now rewrite Hc].
    eapply step_reads_settled; eassumption. }
  step_cases Hs; simpl in Hin |- *;
    apply in_app_or in Hin as [Hin | Hin]; try (now apply Hkeep).
  - destruct Hin as [Hin | []]. discriminate.
  - destruct Hin as [Hin | [Hin | []]]; discriminate.
  - destruct Hin as [Hin | []]. discriminate.
  - destruct Hin as [Hin | Hin]; [discriminate |].
    apply in_map_iff in Hin as (x & Hx & _). discriminate.
  - left. apply (Hread j rj valsj out b [EvCheck j b]);
      [rewrite Hq; now left | exact Hc | exact Hin |].
    intros o' [H | []]. discriminate.
  - left. apply (Hread j rj valsj out b [EvCheck j b]);
      [rewrite Hq; now left | exact Hc | exact Hin |].
    intros o' [H | []]. discriminate.
  - left. apply (Hread j rj valsj out b [EvCheck j b; EvUnhandled etm]);
      [rewrite Hq; now left | exact Hc | exact Hin |].
    intros o' [H | [H | []]]; discriminate.
  - destruct Hin as [Hin | Hin]; [discriminate |].
    apply in_app_or in Hin as [Hin | Hin].
    + apply in_map_iff in Hin as (o' & [= ->] & Ho).
      right. exists j, (log_call rj valsj tm). split.
      * apply in_or_app. right. now left.
      * now rewrite Hl.
    + destruct c as [[] | e]; simpl in Hin; [contradiction |].
      destruct Hin as [Hin | []]. discriminate.
Qed.

Lemma step_unhandled_explained (w w' : World) :
  step w w' -> Inv w ->
  unhandled_explained this w -> unhandled_explained this w'.
Proof.
  intros Hs HI Hold e Hin. pose proof Hs as Hs'.
  assert (forall ev, In ev (trace w) -> In ev (trace w')) as Hmono
    by (intros ev; now apply step_trace_In with (1 := Hs')).
  assert (In (EvUnhandled e) (trace w) ->
          (exists i, In (EvReadSettled i (Rejected e)) (trace w')) \/
          In (EvTimerSettled (Rejected e)) (trace w') \/
          (exists i c out,
             In (EvLog i c) (trace w') /\
             log_method (logger this) c = (out, Throw e))) as Hkeep.
  { intros H. destruct (Hold e H) as [[i Hi] | [Ht | (i & c & out & Hl & Hc)]].
    - left. exists i. now apply Hmono.
    - right. left. now apply Hmono.
    - right. right. exists i, c, out. split; [now apply Hmono | exact Hc]. }
  step_cases Hs; simpl in Hin |- *;
    apply in_app_or in Hin as [Hin | Hin]; try (now apply Hkeep).
  - destruct Hin as [Hin | []]. discriminate.
  - destruct Hin as [Hin | [Hin | []]]; [discriminate |].
    inversion Hin; subst. left. exists j.
    apply in_or_app. right. now left.
  - destruct Hin as [Hin | []]. discriminate.
  - destruct Hin as [Hin | Hin]; [discriminate |].
    apply in_map_iff in Hin as (x & [= ->] & _).
    right. left. apply in_or_app. right. now left.
  - apply in_app_or in Hin as [Hin | [Hin | []]]; [| discriminate].
    apply in_map_iff in Hin as (x & Hx & _). discriminate.
  - apply in_app_or in Hin as [Hin | [Hin | []]]; [| discriminate].
    apply in_map_iff in Hin as (x & Hx & _). discriminate.
  - apply in_app_or in Hin as [Hin | [Hin | [Hin | []]]]; [| discriminate |].
    + apply in_map_iff in Hin as (x & Hx & _). discriminate.
    + inversion Hin; subst. right. left.
      apply in_or_app. left. now apply (inv_timer w0 HI).
  - destruct Hin as [Hin | Hin]; [discriminate |].
    apply in_app_or in Hin as [Hin | Hin].
    + apply in_map_iff in Hin as (x & Hx & _). discriminate.
    + destruct c as [[] | e']; simpl in Hin; [contradiction |].
      destruct Hin as [[= ->] | []].
      right. right. exists j, (log_call rj valsj tm), out. split.
      * apply in_or_app. right. now left.
      * exact Hl.
Qed.

(** *** All of it along a run *)

Local Abbreviation good w :=
  (Inv w /\ checks_justified digits_of w /\ checks_counted w /\
   log_order_kept w /\ logs_followed this w /\
   console_explained digits_of this w /\ unhandled_explained this w).

Lemma step_good (w w' : World) : step w w' -> good w -> good w'.
Proof.
  intros Hs (HI & H1 & H2 & H3 & H4 & H5 & H6).
  split; [now apply (step_Inv digits_of this w) |].
  split; [now apply (step_checks_justified w) |].
  split; [now apply (step_checks_counted w) |].
  split; [now apply (step_log_order_kept w) |].
  split; [now apply (step_logs_followed w) |].
  split; [now apply (step_console_explained w) |].
  now apply (step_unhandled_explained w).
Qed.

Lemma good_initial (tr : list Event) (rs : list Reaction) :
  (forall ev, In ev tr -> is_call ev = true) ->
  good (mkWorld tr (pending_reads rs) Pending [] []).
Proof.
  intros Htr.
  assert (forall ev, is_call ev = false -> ~ In ev tr) as Hnot.
  { intros ev Hev Hin. apply Htr in Hin. congruence. }
  assert (forall pre post ev, is_call ev = false -> tr <> pre ++ ev :: post)
    as Hsplit.
  { intros pre post ev Hev ->. apply (Hnot ev Hev).
    apply in_or_app. right. now left. }
  assert (forall i rc vals,
            ~ settled_read (mkWorld tr (pending_reads rs) Pending [] []) i rc vals)
    as Hno.
  { intros i rc vals H. unfold settled_read, pending_reads in H. simpl in H.
    rewrite list_lookup_fmap in H.
    destruct (rs !! i); simpl in H; congruence. }
  split; [now apply Inv_initial |].
  split; [intros pre post i b H; now destruct (Hsplit pre post (EvCheck i b)) |].
  split; [intros i rc vals H; now destruct (Hno i rc vals) |].
  split.
  { intros _. simpl. rewrite app_nil_r.
    clear Hnot Hsplit Hno. induction tr as [| ev tr IH]; [reflexivity |].
    assert (is_call ev = true) as Hev by (apply Htr; now left).
    assert (check_order (ev :: tr) = check_order tr) as ->
      by (destruct ev; try discriminate; reflexivity).
    assert (log_order (ev :: tr) = log_order tr) as ->
      by (destruct ev; try discriminate; reflexivity).
    apply IH. intros ev' H. apply Htr. now right. }
  split; [intros pre post i c H; now destruct (Hsplit pre post (EvLog i c)) |].
  split; intros x H; now apply Hnot in H.
Qed.

Section CallMore.

Variable kernelName : string.
Variable inputs : NamedTensorMap.
Variable f : ComputeFn.

Local Abbreviation profile_and_run' :=
  (profile_and_run digits_of this kernelName inputs f).
Local Abbreviation reaction := (mkReaction kernelName inputs).

Lemma good_at_end (sched : list (list Settle)) :
  good (snd (profile_and_run' sched)).
Proof.
  rewrite profile_and_run_snd.
  apply (run_preserves digits_of this (fun w => good w)); [exact step_good |].
  destruct (sync_calls (backendTimer this)) as [| k] eqn:Hn.
  - rewrite profileKernel_throws by exact Hn.
    apply (good_initial [EvTime] []). intros ev [<- | []]. reflexivity.
  - rewrite (profileKernel_returns this kernelName inputs f k Hn).
    apply good_initial. apply (world_at_return_calls kernelName inputs f k).
Qed.

(** Without a logger call there is nothing in the logging order. *)
Lemma log_order_none (w : World) :
  Inv w -> (forall timing, timer w <> Settled (Fulfilled timing)) ->
  log_order (trace w) = [].
Proof.
  intros HI Hno.
  assert (forall i c, ~ In (EvLog i c) (trace w)) as Hnolog.
  { intros i c Hin. apply in_split in Hin as (pre & post & Htr).
    destruct (inv_log w HI _ _ _ _ Htr) as (_ & _ & t & _ & Ht & _).
    now destruct (Hno t). }
  induction (trace w) as [| ev tr IH]; [reflexivity |].
  destruct ev; try (apply IH; intros i' c' H; apply (Hnolog i' c'); now right).
  destruct (Hnolog i c). now left.
Qed.

Lemma unsettled_without_result (sched : list (list Settle)) (i : nat) :
  sync_calls (backendTimer this) = 0 ->
  forall rc vals, ~ settled_read (snd (profile_and_run' sched)) i rc vals.
Proof.
  intros Hn rc vals Hr.
  destruct (reaction_at_end digits_of this kernelName inputs f sched i rc _ Hr)
    as (k & _ & Hk & _).
  congruence.
Qed.

(** X3. When the backend timer returns without having run the wrapper,
    [result] is still undefined when the loop reads [r.dataId]:
    [profileKernel] throws a TypeError.  The timer has been called, the
    compute closure and the data reader never are, and nothing is validated
    or logged afterwards. *)
Theorem profileKernel_undefined_result (sched : list (list Settle)) :
  sync_calls (backendTimer this) = 0 ->
  fst (profile_and_run' sched)
  = Throw "TypeError: Cannot read properties of undefined" /\
  List.filter is_call (trace (snd (profile_and_run' sched))) = [EvTime] /\
  forall i,
    count (is_check i) (trace (snd (profile_and_run' sched))) = 0 /\
    count (is_log i) (trace (snd (profile_and_run' sched))) = 0.
Proof.
  intros Hn. split; [| split].
  - now rewrite profile_and_run_fst, profileKernel_throws.
  - now rewrite calls_at_end, profileKernel_throws.
  - intros i. destruct (good_at_end sched) as (HI & Hj & _).
    pose proof (unsettled_without_result sched i Hn) as Hno. split.
    + pose proof (check_tokens_unsettled _ i HI Hj Hno) as H.
      unfold check_tokens in H. lia.
    + apply not_logged; [exact HI | now left].
Qed.


(** X5. At the end of any task the values of a fulfilled read have been
    validated exactly once, whatever became of the timer, rejected or
    pending included; an output whose read is rejected or pending has not
    been validated. *)
Theorem validation_once_per_fulfilled_read
    (sched : list (list Settle)) (i : nat) :
  (forall rc vals,
     reads (snd (profile_and_run' sched)) !! i
     = Some (rc, Settled (Fulfilled vals)) ->
     count (is_check i) (trace (snd (profile_and_run' sched))) = 1) /\
  ((forall rc vals,
      reads (snd (profile_and_run' sched)) !! i
      <> Some (rc, Settled (Fulfilled vals))) ->
   count (is_check i) (trace (snd (profile_and_run' sched))) = 0).
Proof.
  destruct (good_at_end sched) as (HI & Hj & Hc & _). split.
  - intros rc vals Hr. specialize (Hc i rc vals Hr).
    unfold check_tokens in Hc. rewrite queue_at_end, count_nil in Hc.
    exact Hc.
  - intros Hno. pose proof (check_tokens_unsettled _ i HI Hj Hno) as H.
    unfold check_tokens in H. lia.
Qed.

(** X6. Every validation in the trace is the one of the source: of the
    values the read of output [i] was fulfilled with, with the data type of
    the [i]-th descriptor and the kernel name given to [profileKernel]; what
    it wrote to the console stands right before it, and its result is the
    one recorded. *)
Theorem validation_of_the_values_read (sched : list (list Settle))
    (pre post : list Event) (i : nat) (found : bool) :
  trace (snd (profile_and_run' sched)) = pre ++ EvCheck i found :: post ->
  exists k r vals out pre',
    sync_calls (backendTimer this) = S k /\
    outputs (f k) !! i = Some r /\
    reads (snd (profile_and_run' sched)) !! i
    = Some (reaction r, Settled (Fulfilled vals)) /\
    checkComputationForErrors digits_of vals (dtype r) kernelName
    = (out, Normal found) /\
    pre = pre' ++ map EvConsole out.
Proof.
  intros Htr. destruct (good_at_end sched) as (_ & Hj & _).
  destruct (Hj pre post i found Htr) as (rc & vals & out & Hr & Hc & pre' & ->).
  destruct (reaction_at_end digits_of this kernelName inputs f sched i rc _ Hr)
    as (k & r & Hk & Ho & ->).
  now exists k, r, vals, out, pre'.
Qed.

(** X7. The logger is called for the outputs in the order in which their
    values were validated: at any end of a task the sequence of outputs
    logged is a prefix of the sequence of outputs validated, and the two are
    equal once the timer is fulfilled. *)
Theorem logger_called_in_validation_order (sched : list (list Settle)) :
  log_order (trace (snd (profile_and_run' sched)))
    `prefix_of` check_order (trace (snd (profile_and_run' sched))) /\
  (forall timing,
     timer (snd (profile_and_run' sched)) = Settled (Fulfilled timing) ->
     log_order (trace (snd (profile_and_run' sched)))
     = check_order (trace (snd (profile_and_run' sched)))).
Proof.
  destruct (good_at_end sched) as (HI & _ & _ & Ho & _).
  pose proof (queue_at_end digits_of this kernelName inputs f sched) as Hq.
  set (w := snd (profile_and_run' sched)) in *. clearbody w.
  unfold log_order_kept in Ho. rewrite Hq in Ho.
  change (job_log_order []) with (@nil nat) in Ho. simpl in Ho.
  split.
  - destruct (timer w) as [| [t | e]] eqn:Ht.
    + rewrite Ho by discriminate. now apply prefix_app_r.
    + rewrite Ho by discriminate. now apply prefix_app_r.
    + rewrite (log_order_none w HI) by (rewrite Ht; discriminate).
      apply prefix_nil.
  - intros timing Ht. rewrite Ho by (rewrite Ht; discriminate).
    rewrite (no_waiting_when_settled w _ HI Ht). simpl.
    now rewrite app_nil_r.
Qed.

(** X8. Every logger call in the trace is followed at once by what the
    logger wrote to the console during that call, whether it then returned
    or threw: nothing else comes in between, since the call is made and
    completed within one reaction job. *)
Theorem logger_output_follows_call (sched : list (list Settle))
    (pre post : list Event) (i : nat) (c : LogCall) :
  trace (snd (profile_and_run' sched)) = pre ++ EvLog i c :: post ->
  exists rest,
    post = map EvConsole (fst (log_method (logger this) c)) ++ rest.
Proof.
  intros Htr. destruct (good_at_end sched) as (_ & _ & _ & _ & Hl & _).
  destruct (Hl pre post i c Htr) as [rest ->]. eauto.
Qed.

(** X9. The profiler itself writes nothing to the console but validation
    warnings: every console call of a run is a warning "Found NaN",
    "Found Infinity" or "Found -Infinity" for the kernel name given to
    [profileKernel], or was made by the logger during one of its calls. *)
Theorem console_output_explained (sched : list (list Settle)) (o : Output) :
  In (EvConsole o) (trace (snd (profile_and_run' sched))) ->
  (exists lit,
     (lit = "NaN" \/ lit = "Infinity" \/ lit = "-Infinity") /\
     o = ConsoleWarn ("Found " +:+ lit +:+ " in the result of '"
                      +:+ kernelName +:+ "'")) \/
  (exists i c,
     In (EvLog i c) (trace (snd (profile_and_run' sched))) /\
     In o (fst (log_method (logger this) c))).
Proof.
  intros Hin. destruct (good_at_end sched) as (_ & _ & _ & _ & _ & Hc & _).
  destruct (Hc o Hin) as [(i & rc & vals & Hr & Ho) | H]; [| now right].
  left.
  destruct (reaction_at_end digits_of this kernelName inputs f sched i rc _ Hr)
    as (k & r & _ & _ & ->).
  simpl in Ho.
  destruct (validation_cases digits_of vals (dtype r) kernelName)
    as [H | (lit & Hlit & H)]; rewrite H in Ho; simpl in Ho.
  - contradiction.
  - destruct Ho as [<- | []]. now exists lit.
Qed.

(** X10. An unhandled rejection of a run has one of three causes, and
    carries its reason: a read that was rejected, the timer that was
    rejected, or an exception thrown by the logger during one of its
    calls. *)
Theorem unhandled_rejections_explained
    (sched : list (list Settle)) (e : Error) :
  In (EvUnhandled e) (trace (snd (profile_and_run' sched))) ->
  (exists i,
     In (EvReadSettled i (Rejected e)) (trace (snd (profile_and_run' sched)))) \/
  In (EvTimerSettled (Rejected e)) (trace (snd (profile_and_run' sched))) \/
  (exists i c out,
     In (EvLog i c) (trace (snd (profile_and_run' sched))) /\
     log_method (logger this) c = (out, Throw e)).
Proof.
  intros Hin. destruct (good_at_end sched) as (_ & _ & _ & _ & _ & _ & Hu).
  exact (Hu e Hin).
Qed.

End CallMore.

End AsynchronousMore.

(** ** The default logger *)

Section DefaultLogger.

Variable digits_of : number -> string.
Variable bt : BackendTimer.
Variable kernelName : string.
Variable inputs : NamedTensorMap.
Variable f : ComputeFn.

Local Abbreviation this := (new_Profiler digits_of bt None).
Local Abbreviation profile_and_run' :=
  (profile_and_run digits_of this kernelName inputs f).

(** X11. A profiler constructed without a logger logs with [new Logger()]:
    in its runs every logger call is followed at once by exactly one
    [console.log] call, the line [logKernelProfile] makes of the arguments
    of that call, and an unhandled rejection can only come from a rejected
    read or from the rejected timer. *)
Theorem default_logger_run (sched : list (list Settle)) :
  (forall pre post i c,
     trace (snd (profile_and_run' sched)) = pre ++ EvLog i c :: post ->
     exists fmt rest,
       logKernelProfile digits_of (lc_name c) (lc_result c) (lc_vals c)
         (lc_timeMs c) (lc_inputs c) (lc_extraInfo c)
       = ([ConsoleLog fmt log_styles], Normal tt) /\
       post = EvConsole (ConsoleLog fmt log_styles) :: rest) /\
  (forall e,
     In (EvUnhandled e) (trace (snd (profile_and_run' sched))) ->
     (exists i,
        In (EvReadSettled i (Rejected e))
           (trace (snd (profile_and_run' sched)))) \/
     In (EvTimerSettled (Rejected e)) (trace (snd (profile_and_run' sched)))).
Proof.
  destruct (good_at_end digits_of this kernelName inputs f sched)
    as (_ & _ & _ & _ & Hl & _ & Hu).
  split.
  - intros pre post i c Htr. destruct (Hl pre post i c Htr) as [rest ->].
    eexists. exists rest. split; reflexivity.
  - intros e Hin.
    destruct (Hu e Hin) as [H | [H | (i & c & out & _ & Hthrow)]]; auto.
    discriminate Hthrow.
Qed.

End DefaultLogger.

(** * Worked runs, evaluated *)

Example add_run :
  profile_and_run no_digits add_profiler "Add" add_inputs add_f add_sched
  = (Normal (Some (Single (matrix22 3))),
     mkWorld
       [EvTime; EvCompute 0; EvRead 0 3;
        EvReadSettled 0 (Fulfilled add_vals); EvCheck 0 false;
        EvTimerSettled (Fulfilled add_timing);
        EvLog 0 add_log_call; EvConsole add_line]
       [(mkReaction "Add" add_inputs (matrix22 3), Settled (Fulfilled add_vals))]
       (Settled (Fulfilled add_timing)) [] []).
Proof. reflexivity. Qed.

Example pair_run_order :
  List.filter
    (fun ev => match ev with
               | EvCheck _ _ | EvLog _ _ | EvConsole (ConsoleWarn _) => true
               | _ => false
               end)
    (trace (snd (profile_and_run no_digits add_profiler "Add" add_inputs
                   pair_f pair_sched)))
  = [EvConsole (ConsoleWarn "Found NaN in the result of 'Add'");
     EvCheck 1 true;
     EvConsole (ConsoleWarn "Found Infinity in the result of 'Add'");
     EvCheck 0 true;
     EvLog 1 (mkLogCall "Add" (matrix22 4) [NaN] (of_Z 7) add_inputs (Some ""));
     EvLog 0 (mkLogCall "Add" (matrix22 3) [Infinity; NegInfinity] (of_Z 7)
                add_inputs (Some ""))].
Proof. reflexivity. Qed.

(** A timer that does not run the wrapper: the call throws. *)
Example lazy_timer_throws :
  fst (profileKernel (new_Profiler no_digits (mkBackendTimer 0) None)
         "Add" add_inputs add_f start)
  = Throw "TypeError: Cannot read properties of undefined".
Proof. reflexivity. Qed.

(** The data reader throws for the second output: the caller receives the
    exception, the read of the first output stays registered and is
    validated and logged later. *)
Example reader_throws_run :
  profile_and_run_with no_digits failing_reader add_profiler "Add" add_inputs
    (returning pair_f) add_sched
  = (Throw "read refused",
     mkWorld
       [EvTime; EvCompute 0; EvRead 0 3; EvRead 1 4;
        EvReadSettled 0 (Fulfilled add_vals); EvCheck 0 false;
        EvTimerSettled (Fulfilled add_timing);
        EvLog 0 add_log_call; EvConsole add_line]
       [(mkReaction "Add" add_inputs (matrix22 3), Settled (Fulfilled add_vals))]
       (Settled (Fulfilled add_timing)) [] []).
Proof. reflexivity. Qed.

Example broken_run :
  profile_and_run no_digits broken_profiler "Add" add_inputs pair_f broken_sched
  = (Normal (Some (Several [matrix22 3; matrix22 4])),
     mkWorld
       [EvTime; EvCompute 0; EvRead 0 3; EvRead 1 4;
        EvReadSettled 0 (Rejected "read failed"); EvUnhandled "read failed";
        EvReadSettled 1 (Fulfilled add_vals); EvCheck 1 false;
        EvTimerSettled (Fulfilled add_timing);
        EvLog 1 (mkLogCall "Add" (matrix22 4) add_vals (of_Z 7) add_inputs
                   (Some ""));
        EvUnhandled "logger failed"]
       [(mkReaction "Add" add_inputs (matrix22 3), Settled (Rejected "read failed"));
        (mkReaction "Add" add_inputs (matrix22 4), Settled (Fulfilled add_vals))]
       (Settled (Fulfilled add_timing)) [] []).
Proof. reflexivity. Qed.

(** * Instances of the claims *)




Lemma logger_call_after_read_and_timer_witness :
  trace (snd (profile_and_run no_digits add_profiler "Add" add_inputs add_f
                add_sched))
  = [EvTime; EvCompute 0; EvRead 0 3;
     EvReadSettled 0 (Fulfilled add_vals); EvCheck 0 false;
     EvTimerSettled (Fulfilled add_timing)]
    ++ EvLog 0 add_log_call :: [EvConsole add_line] /\
  exists r vals timing found,
    add_log_call = log_call (mkReaction "Add" add_inputs r) vals timing /\
    [EvReadSettled 0 (Fulfilled vals); EvCheck 0 found]
      `sublist_of` [EvTime; EvCompute 0; EvRead 0 3;
                    EvReadSettled 0 (Fulfilled add_vals); EvCheck 0 false;
                    EvTimerSettled (Fulfilled add_timing)] /\
    In (EvTimerSettled (Fulfilled timing))
       [EvTime; EvCompute 0; EvRead 0 3;
        EvReadSettled 0 (Fulfilled add_vals); EvCheck 0 false;
        EvTimerSettled (Fulfilled add_timing)].
Proof.
  split; [reflexivity |].
  apply (logger_call_after_read_and_timer no_digits add_profiler "Add"
           add_inputs add_f add_sched _ [EvConsole add_line] 0 add_log_call).
  reflexivity.
Defined.



(** Errors that reach the caller: the TypeError when the timer returns
    without having run the wrapper, what the compute closure, the timer or
    the data reader throws during the call, and the TypeError again when
    the closure throws inside a timer that catches it. *)
Lemma profileKernel_surfaces_errors :
  fst (profile_and_run no_digits lazy_profiler "Add" add_inputs add_f add_sched)
  = Throw "TypeError: Cannot read properties of undefined" /\
  fst (profile_and_run_with no_digits no_faults add_profiler "Add" add_inputs
         failing_f add_sched)
  = Throw "kernel failed" /\
  fst (profile_and_run_with no_digits failing_timer add_profiler "Add"
         add_inputs (returning add_f) add_sched)
  = Throw "timer failed" /\
  fst (profile_and_run_with no_digits failing_reader add_profiler "Add"
         add_inputs (returning pair_f) add_sched)
  = Throw "read refused" /\
  fst (profile_and_run_with no_digits async_timer add_profiler "Add"
         add_inputs failing_f add_sched)
  = Throw "TypeError: Cannot read properties of undefined".
Proof. repeat split. Qed.

(** A throwing logger and a rejected read, with collaborators that return:
    the caller receives the closure's value. *)
Lemma errors_reaching_the_caller_witness :
  (sync_calls (backendTimer broken_profiler) = 1 /\
   (forall j, j <= 0 -> exists o, returning pair_f j = Normal o) /\
   returning pair_f 0 = Normal (Several [matrix22 3; matrix22 4]) /\
   time_throws no_faults = None /\
   (forall i, i < List.length (outputs (Several [matrix22 3; matrix22 4])) ->
              read_throws no_faults i = None)) /\
  fst (profile_and_run_with no_digits no_faults broken_profiler "Add"
         add_inputs (returning pair_f) broken_sched)
  = Normal (Some (Several [matrix22 3; matrix22 4])).
Proof.
  assert (H : forall j, j <= 0 -> exists o, returning pair_f j = Normal o)
    by (intros j _; eexists; reflexivity).
  split.
  - split; [reflexivity |]. split; [exact H |]. split; [reflexivity |].
    split; [reflexivity |]. intros i _. reflexivity.
  - destruct (errors_reaching_the_caller no_digits broken_profiler no_faults
                "Add" add_inputs (returning pair_f) broken_sched)
      as (_ & _ & _ & _ & _ & _ & Hret & _).
    exact (proj2 (Hret 0 (Several [matrix22 3; matrix22 4]) eq_refl H eq_refl
                    eq_refl)
             (fun i _ => eq_refl)).
Defined.

(** * Instances of the further properties *)

Lemma profileKernel_undefined_result_witness :
  sync_calls (backendTimer lazy_profiler) = 0 /\
  fst (profile_and_run no_digits lazy_profiler "Add" add_inputs add_f add_sched)
  = Throw "TypeError: Cannot read properties of undefined" /\
  List.filter is_call
    (trace (snd (profile_and_run no_digits lazy_profiler "Add" add_inputs
                   add_f add_sched)))
  = [EvTime].
Proof.
  split; [reflexivity |].
  destruct (profileKernel_undefined_result no_digits lazy_profiler "Add"
              add_inputs add_f add_sched eq_refl) as (H1 & H2 & _).
  split; [exact H1 | exact H2].
Defined.


Lemma validation_once_per_fulfilled_read_witness :
  reads (snd (profile_and_run no_digits add_profiler "Add" add_inputs add_f
                untimed_sched)) !! 0
  = Some (mkReaction "Add" add_inputs (matrix22 3), Settled (Fulfilled [NaN])) /\
  timer (snd (profile_and_run no_digits add_profiler "Add" add_inputs add_f
                untimed_sched))
  = Settled (Rejected "no timing") /\
  count (is_check 0)
    (trace (snd (profile_and_run no_digits add_profiler "Add" add_inputs add_f
                   untimed_sched)))
  = 1.
Proof.
  split; [reflexivity |]. split; [reflexivity |].
  apply (proj1 (validation_once_per_fulfilled_read no_digits add_profiler
                  "Add" add_inputs add_f untimed_sched 0)
           (mkReaction "Add" add_inputs (matrix22 3)) [NaN]).
  reflexivity.
Defined.

Lemma validation_of_the_values_read_witness :
  trace (snd (profile_and_run no_digits add_profiler "Add" add_inputs add_f
                untimed_sched))
  = [EvTime; EvCompute 0; EvRead 0 3; EvReadSettled 0 (Fulfilled [NaN]);
     EvConsole (ConsoleWarn "Found NaN in the result of 'Add'")]
    ++ EvCheck 0 true
    :: [EvTimerSettled (Rejected "no timing"); EvUnhandled "no timing"] /\
  exists k r vals out pre',
    sync_calls (backendTimer add_profiler) = S k /\
    outputs (add_f k) !! 0 = Some r /\
    reads (snd (profile_and_run no_digits add_profiler "Add" add_inputs add_f
                  untimed_sched)) !! 0
    = Some (mkReaction "Add" add_inputs r, Settled (Fulfilled vals)) /\
    checkComputationForErrors no_digits vals (dtype r) "Add"
    = (out, Normal true) /\
    [EvTime; EvCompute 0; EvRead 0 3; EvReadSettled 0 (Fulfilled [NaN]);
     EvConsole (ConsoleWarn "Found NaN in the result of 'Add'")]
    = pre' ++ map EvConsole out.
Proof.
  split; [reflexivity |].
  apply (validation_of_the_values_read no_digits add_profiler "Add" add_inputs
           add_f untimed_sched _
           [EvTimerSettled (Rejected "no timing"); EvUnhandled "no timing"]
           0 true).
  reflexivity.
Defined.

Lemma logger_called_in_validation_order_witness :
  timer (snd (profile_and_run no_digits add_profiler "Add" add_inputs pair_f
                pair_sched))
  = Settled (Fulfilled add_timing) /\
  check_order
    (trace (snd (profile_and_run no_digits add_profiler "Add" add_inputs
                   pair_f pair_sched)))
  = [1; 0] /\
  log_order
    (trace (snd (profile_and_run no_digits add_profiler "Add" add_inputs
                   pair_f pair_sched)))
  = check_order
      (trace (snd (profile_and_run no_digits add_profiler "Add" add_inputs
                     pair_f pair_sched))).
Proof.
  split; [reflexivity |]. split; [reflexivity |].
  apply (proj2 (logger_called_in_validation_order no_digits add_profiler "Add"
                  add_inputs pair_f pair_sched) add_timing).
  reflexivity.
Defined.

Lemma logger_output_follows_call_witness :
  trace (snd (profile_and_run no_digits noisy_profiler "Add" add_inputs
                add_f add_sched))
  = [EvTime; EvCompute 0; EvRead 0 3;
     EvReadSettled 0 (Fulfilled add_vals); EvCheck 0 false;
     EvTimerSettled (Fulfilled add_timing)]
    ++ EvLog 0 add_log_call
    :: [EvConsole (ConsoleLog "Add" []); EvUnhandled "logger failed"] /\
  exists rest,
    [EvConsole (ConsoleLog "Add" []); EvUnhandled "logger failed"]
    = map EvConsole (fst (log_method (logger noisy_profiler) add_log_call))
      ++ rest.
Proof.
  split; [reflexivity |].
  apply (logger_output_follows_call no_digits noisy_profiler "Add" add_inputs
           add_f add_sched
           [EvTime; EvCompute 0; EvRead 0 3;
            EvReadSettled 0 (Fulfilled add_vals); EvCheck 0 false;
            EvTimerSettled (Fulfilled add_timing)]
           [EvConsole (ConsoleLog "Add" []); EvUnhandled "logger failed"]
           0 add_log_call).
  reflexivity.
Defined.

Lemma console_output_explained_witness :
  In (EvConsole (ConsoleWarn "Found NaN in the result of 'Add'"))
     (trace (snd (profile_and_run no_digits add_profiler "Add" add_inputs
                    add_f untimed_sched))) /\
  ((exists lit,
      (lit = "NaN" \/ lit = "Infinity" \/ lit = "-Infinity") /\
      ConsoleWarn "Found NaN in the result of 'Add'"
      = ConsoleWarn ("Found " +:+ lit +:+ " in the result of '"
                     +:+ "Add" +:+ "'")) \/
   (exists i c,
      In (EvLog i c)
         (trace (snd (profile_and_run no_digits add_profiler "Add" add_inputs
                        add_f untimed_sched))) /\
      In (ConsoleWarn "Found NaN in the result of 'Add'")
         (fst (log_method (logger add_profiler) c)))).
Proof.
  assert (In (EvConsole (ConsoleWarn "Found NaN in the result of 'Add'"))
             (trace (snd (profile_and_run no_digits add_profiler "Add"
                            add_inputs add_f untimed_sched)))) as Hin
    by (simpl; auto 10).
  split; [exact Hin |].
  exact (console_output_explained no_digits add_profiler "Add" add_inputs
           add_f untimed_sched _ Hin).
Defined.

Lemma unhandled_rejections_explained_witness :
  In (EvUnhandled "logger failed")
     (trace (snd (profile_and_run no_digits broken_profiler "Add" add_inputs
                    pair_f broken_sched))) /\
  ((exists i,
      In (EvReadSettled i (Rejected "logger failed"))
         (trace (snd (profile_and_run no_digits broken_profiler "Add"
                        add_inputs pair_f broken_sched)))) \/
   In (EvTimerSettled (Rejected "logger failed"))
      (trace (snd (profile_and_run no_digits broken_profiler "Add" add_inputs
                     pair_f broken_sched))) \/
   (exists i c out,
      In (EvLog i c)
         (trace (snd (profile_and_run no_digits broken_profiler "Add"
                        add_inputs pair_f broken_sched))) /\
      log_method (logger broken_profiler) c = (out, Throw "logger failed"))).
Proof.
  assert (In (EvUnhandled "logger failed")
             (trace (snd (profile_and_run no_digits broken_profiler "Add"
                            add_inputs pair_f broken_sched)))) as Hin
    by (simpl; auto 20).
  split; [exact Hin |].
  exact (unhandled_rejections_explained no_digits broken_profiler "Add"
           add_inputs pair_f broken_sched _ Hin).
Defined.

Lemma default_logger_run_witness :
  trace (snd (profile_and_run no_digits
                (new_Profiler no_digits (mkBackendTimer 1) None) "Add"
                add_inputs add_f add_sched))
  = [EvTime; EvCompute 0; EvRead 0 3;
     EvReadSettled 0 (Fulfilled add_vals); EvCheck 0 false;
     EvTimerSettled (Fulfilled add_timing)]
    ++ EvLog 0 add_log_call :: [EvConsole add_line] /\
  exists fmt rest,
    logKernelProfile no_digits (lc_name add_log_call) (lc_result add_log_call)
      (lc_vals add_log_call) (lc_timeMs add_log_call) (lc_inputs add_log_call)
      (lc_extraInfo add_log_call)
    = ([ConsoleLog fmt log_styles], Normal tt) /\
    [EvConsole add_line] = EvConsole (ConsoleLog fmt log_styles) :: rest.
Proof.
  split; [reflexivity |].
  apply (proj1 (default_logger_run no_digits (mkBackendTimer 1) "Add"
                  add_inputs add_f add_sched)
           [EvTime; EvCompute 0; EvRead 0 3;
            EvReadSettled 0 (Fulfilled add_vals); EvCheck 0 false;
            EvTimerSettled (Fulfilled add_timing)]
           [EvConsole add_line] 0 add_log_call).
  reflexivity.
Defined.
